(** * Series grouping, ordering and navigation of the blog's post collection

    A shallow embedding of [src/utils/getUniqueSeries.ts],
    [src/utils/getPostsBySeries.ts] and the series navigation helper, with the
    properties of the series specification stated and proved over it.

    Conventions of the embedding:
    - a JavaScript [number] that holds an integer ([seriesOrder], the
      millisecond timestamp [pubDatetime.getTime()], an array index, a
      counter) is a [Z]; the comparators only use the sign of a difference,
      which is the same over the integers and over doubles in the safe range;
    - a JavaScript string is a [string]; [x?: T] is [option T];
    - an array is a [list]; [Array.prototype.sort] is a stable sort, modelled
      by a stable insertion sort (for a consistent comparator the stable
      sorted arrangement of a list is unique, see [sort_unique]);
    - a [Map] is an association list in insertion order, which is the order
      [entries()] iterates in;
    - the collaborators that are imported but are not part of the sources
      ([slugifyStr], [postFilter]) and the host's collation
      ([String.prototype.localeCompare]) are parameters. *)

From Stdlib Require Import List String Ascii ZArith Lia Bool Permutation Sorted.
Import ListNotations.

Local Open Scope string_scope.
Local Open Scope list_scope.
Local Open Scope Z_scope.

(** ** JavaScript values *)

(** Truthiness of an optional string: [undefined] and [""] are falsy. *)
Definition truthy (s : option string) : bool :=
  match s with
  | Some v => negb (v =? "")%string
  | None => false
  end.

(** [a ?? d] *)
Definition nullish {A : Type} (a : option A) (d : A) : A :=
  match a with
  | Some v => v
  | None => d
  end.

(** ** Arrays *)

Module JsArray.
Section Ops.
Context {A : Type}.

(** [arr.length] *)
Definition length (arr : list A) : Z := Z.of_nat (List.length arr).

(** [arr[i]]: [undefined] (here [None]) outside the array. *)
Definition at_ (arr : list A) (i : Z) : option A :=
  if i <? 0 then None else nth_error arr (Z.to_nat i).

Fixpoint findIndexFrom (f : A -> bool) (arr : list A) (i : Z) : Z :=
  match arr with
  | [] => -1
  | x :: rest => if f x then i else findIndexFrom f rest (i + 1)
  end.

(** [arr.findIndex(f)]: the first index whose element satisfies [f],
    [-1] when there is none. *)
Definition findIndex (f : A -> bool) (arr : list A) : Z :=
  findIndexFrom f arr 0.

(** Stable insertion: [x] stood before every element of [arr] in the
    input, so it goes before the first element it does not exceed. *)
Fixpoint insert (cmp : A -> A -> Z) (x : A) (arr : list A) : list A :=
  match arr with
  | [] => [x]
  | y :: rest =>
      if cmp x y <=? 0 then x :: y :: rest else y :: insert cmp x rest
  end.

(** [arr.sort(cmp)]: [cmp a b < 0] puts [a] first, [cmp a b > 0] puts
    [b] first, [cmp a b = 0] keeps the input order. *)
Fixpoint sort (cmp : A -> A -> Z) (arr : list A) : list A :=
  match arr with
  | [] => []
  | x :: rest => insert cmp x (sort cmp rest)
  end.
End Ops.
End JsArray.

(** ** Maps with string keys *)

Module JsMap.
Section Ops.
Context {V : Type}.

Definition t : Type := list (string * V).

Definition empty : t := [].

Fixpoint get (m : t) (k : string) : option V :=
  match m with
  | [] => None
  | (k', v) :: rest => if (k' =? k)%string then Some v else get rest k
  end.

Definition has (m : t) (k : string) : bool :=
  match get m k with
  | Some _ => true
  | None => false
  end.

(** Mutation of the object stored under [k] (the map keeps the same
    reference, so the entry keeps its place). *)
Fixpoint update (m : t) (k : string) (f : V -> V) : t :=
  match m with
  | [] => []
  | (k', v) :: rest =>
      if (k' =? k)%string then (k', f v) :: rest
      else (k', v) :: update rest k f
  end.

(** [m.set(k, v)]: an existing key keeps its place, a new key goes last. *)
Definition set (m : t) (k : string) (v : V) : t :=
  if has m k then update m k (fun _ => v) else m ++ [(k, v)].

(** [Array.from(m.entries())] *)
Definition entries (m : t) : list (string * V) := m.
End Ops.
Arguments t : clear implicits.
End JsMap.

(** ** Data model *)

(** The front-matter fields of a blog entry that the series code reads. *)
Record BlogData : Type := mkData {
  title : string;
  pubDatetime : Z;              (* pubDatetime.getTime() *)
  series : option string;
  seriesOrder : option Z
}.

(** [CollectionEntry<"blog">] *)
Record CollectionEntry : Type := mkEntry {
  id : string;
  data : BlogData
}.

(** [interface Series] *)
Module Series.
Record t : Type := mk {
  series : string;
  seriesName : string;
  count : Z
}.
End Series.

(** [interface SeriesNavigation] *)
Module SeriesNavigation.
Record t : Type := mk {
  prevPost : option CollectionEntry;
  nextPost : option CollectionEntry;
  currentIndex : Z;
  totalPosts : Z;
  seriesName : string
}.
End SeriesNavigation.

(** ** The series utilities *)

Section Program.
(** [./slugify] and [./postFilter] are imported by the sources; the
    collation behind [localeCompare] belongs to the host. *)
Variable slugifyStr : string -> string.
Variable postFilter : CollectionEntry -> bool.
Variable localeCompare : string -> string -> Z.

(** [post => post.data.series] *)
Definition hasSeries (post : CollectionEntry) : bool :=
  truthy (series (data post)).

(** [post => post.data.series && slugifyStr(post.data.series) === series] *)
Definition inSeries (seriesId : string) (post : CollectionEntry) : bool :=
  match series (data post) with
  | Some name =>
      negb (name =? "")%string && (slugifyStr name =? seriesId)%string
  | None => false
  end.

(** The comparator of [getPostsBySeries]. *)
Definition seriesCompare (a b : CollectionEntry) : Z :=
  let orderA := nullish (seriesOrder (data a)) 999 in
  let orderB := nullish (seriesOrder (data b)) 999 in
  if negb (orderA =? orderB) then orderA - orderB
  else pubDatetime (data a) - pubDatetime (data b).

Definition getPostsBySeries (posts : list CollectionEntry)
    (seriesId : string) : list CollectionEntry :=
  JsArray.sort seriesCompare
    (filter (inSeries seriesId) (filter postFilter posts)).

(** The body of the [forEach] of [getUniqueSeries]; the map value is the
    object [{ seriesName, count }]. *)
Definition recordPost (seriesMap : JsMap.t (string * Z))
    (post : CollectionEntry) : JsMap.t (string * Z) :=
  match series (data post) with
  | Some seriesName =>
      let seriesSlug := slugifyStr seriesName in
      if JsMap.has seriesMap seriesSlug
      then JsMap.update seriesMap seriesSlug (fun e => (fst e, snd e + 1))
      else JsMap.set seriesMap seriesSlug (seriesName, 1)
  | None => seriesMap (* excluded by the filter before the loop *)
  end.

Definition collectSeries (posts : list CollectionEntry)
    : JsMap.t (string * Z) :=
  fold_left recordPost (filter hasSeries (filter postFilter posts))
    JsMap.empty.

Definition toSeries (e : string * (string * Z)) : Series.t :=
  Series.mk (fst e) (fst (snd e)) (snd (snd e)).

Definition byDisplayName (a b : Series.t) : Z :=
  localeCompare (Series.seriesName a) (Series.seriesName b).

Definition getUniqueSeries (posts : list CollectionEntry) : list Series.t :=
  JsArray.sort byDisplayName
    (map toSeries (JsMap.entries (collectSeries posts))).

Definition getSeriesNavigation (posts : list CollectionEntry)
    (currentPost : CollectionEntry) : option SeriesNavigation.t :=
  match series (data currentPost) with
  | None => None
  | Some name =>
      if (name =? "")%string then None
      else
        let seriesSlug := slugifyStr name in
        let seriesPosts := getPostsBySeries posts seriesSlug in
        let currentIndex :=
          JsArray.findIndex (fun post => (id post =? id currentPost)%string)
            seriesPosts in
        if (currentIndex =? -1)%Z then None
        else
          Some
            (SeriesNavigation.mk
               (if (currentIndex >? 0)%Z
                then JsArray.at_ seriesPosts (currentIndex - 1)
                else None)
               (if (currentIndex <? JsArray.length seriesPosts - 1)%Z
                then JsArray.at_ seriesPosts (currentIndex + 1)
                else None)
               (currentIndex + 1)
               (JsArray.length seriesPosts)
               name)
  end.
End Program.

(** ** Vocabulary of the specification *)

(** [precedes x y l]: some occurrence of [x] stands before some occurrence
    of [y] in [l]. *)
Definition precedes {A : Type} (x y : A) (l : list A) : Prop :=
  exists l1 l2 l3, l = l1 ++ x :: l2 ++ y :: l3.

Section OrderVocabulary.
Context {A : Type}.
Variable cmp : A -> A -> Z.

(** [a] may stand before [b]. *)
Definition cmpLe (a b : A) : Prop := cmp a b <= 0.

(** [x] and [k] are in the same class of ties. *)
Definition tied (k x : A) : bool := (cmp x k <=? 0) && (cmp k x <=? 0).
End OrderVocabulary.

(** [n] is the first position of [l] whose element satisfies [f]. *)
Definition firstAt {A : Type} (f : A -> bool) (l : list A) (n : nat) : Prop :=
  (exists x, nth_error l n = Some x /\ f x = true) /\
  (forall j y, (j < n)%nat -> nth_error l j = Some y -> f y = false).

(** The keys of a map, in insertion order. *)
Definition keys {V : Type} (m : JsMap.t V) : list string := map fst m.

(** The pair the comparator orders by: [seriesOrder ?? 999], then the
    publication time. *)
Definition sortKey (p : CollectionEntry) : Z * Z :=
  (nullish (seriesOrder (data p)) 999, pubDatetime (data p)).

Definition keyLe (a b : CollectionEntry) : Prop :=
  fst (sortKey a) < fst (sortKey b) \/
  (fst (sortKey a) = fst (sortKey b) /\ snd (sortKey a) <= snd (sortKey b)).

Definition sameKey (k : Z * Z) (p : CollectionEntry) : bool :=
  (fst (sortKey p) =? fst k) && (snd (sortKey p) =? snd k).

(** The order the specification asks for: [seriesOrder] with an absent
    value above every number, then the publication time, then the [id]. *)
Definition tripleLe (a b : CollectionEntry) : Prop :=
  let rest :=
    pubDatetime (data a) < pubDatetime (data b) \/
    (pubDatetime (data a) = pubDatetime (data b) /\
     String.leb (id a) (id b) = true) in
  match seriesOrder (data a), seriesOrder (data b) with
  | Some x, Some y => x < y \/ (x = y /\ rest)
  | Some _, None => True
  | None, Some _ => False
  | None, None => rest
  end.

Section SeriesVocabulary.
Variable slugifyStr : string -> string.
Variable postFilter : CollectionEntry -> bool.
Variable localeCompare : string -> string -> Z.

(** The posts the selection keeps, before they are ordered. *)
Definition eligibleIn (s : string) (p : CollectionEntry) : bool :=
  postFilter p && inSeries slugifyStr s p.

(** The series name of [q], whatever it is, normalizes to [k]. *)
Definition slugIs (k : string) (q : CollectionEntry) : bool :=
  match series (data q) with
  | Some name => (slugifyStr name =? k)%string
  | None => false
  end.

(** The number of posts of [l] whose series name normalizes to [k]. *)
Definition tally (k : string) (l : list CollectionEntry) : Z :=
  JsArray.length (filter (slugIs k) l).

(** The series name of the first post of [l] whose name normalizes to
    [k]. *)
Definition firstName (k : string) (l : list CollectionEntry)
    : option string :=
  match find (slugIs k) l with
  | Some q => series (data q)
  | None => None
  end.

(** The entries of the index listed under the identifier [k]. *)
Definition summariesOf (k : string) (l : list Series.t) : list Series.t :=
  filter (fun x => (Series.series x =? k)%string) l.

(** Display names in non-decreasing collation order. *)
Definition nameLe (a b : Series.t) : Prop :=
  localeCompare (Series.seriesName a) (Series.seriesName b) <= 0.

(** [post => post.id === currentPost.id] *)
Definition sameId (currentPost post : CollectionEntry) : bool :=
  (id post =? id currentPost)%string.

(** The result for a current post found at position [i] of the ordered
    members [l] of its series. *)
Definition resultAt (l : list CollectionEntry) (i : nat) (name : string)
    : SeriesNavigation.t :=
  SeriesNavigation.mk
    (if (0 <? i)%nat then nth_error l (i - 1) else None)
    (if (i <? List.length l - 1)%nat then nth_error l (i + 1) else None)
    (Z.of_nat i + 1)
    (Z.of_nat (List.length l))
    name.
End SeriesVocabulary.

(** ** The callers of the series utilities *)

Section Callers.
Variable slugifyStr : string -> string.
Variable postFilter : CollectionEntry -> bool.
Variable localeCompare : string -> string -> Z.

(** The posts the loop of [getUniqueSeries] runs over: eligible, with a
    truthy [series]. *)
Definition seriesBearing (p : CollectionEntry) : bool :=
  postFilter p && hasSeries p.

(** [const seriesSlug = slugifyStr(seriesName)] of the navigation component
    ([components/SeriesNavigation.astro]): the identifier in its link
    [/series/${seriesSlug}/]. *)
Definition navSeriesSlug (seriesNav : SeriesNavigation.t) : string :=
  slugifyStr (SeriesNavigation.seriesName seriesNav).

(** The post lists that [getStaticPaths] of the series pages passes to
    [paginate]: [getPostsBySeries(posts, series)] for every entry of
    [getUniqueSeries(posts)], in the order of the index. *)
Definition seriesPostLists (posts : list CollectionEntry)
    : list (list CollectionEntry) :=
  map (fun s => getPostsBySeries slugifyStr postFilter posts (Series.series s))
    (getUniqueSeries slugifyStr postFilter localeCompare posts).
End Callers.

(** The sum of the counts of an index. *)
Definition totalCount (l : list Series.t) : Z :=
  fold_right (fun s acc => Series.count s + acc) 0 l.

(** ** Statements of the specification that the code does not meet *)

(** A post without [seriesOrder] comes after every post of its series that
    has a positive one. *)
Definition missingOrderSortsLast (slugifyStr : string -> string)
    (postFilter : CollectionEntry -> bool) : Prop :=
  forall posts s a b n,
    In a (getPostsBySeries slugifyStr postFilter posts s) ->
    In b (getPostsBySeries slugifyStr postFilter posts s) ->
    seriesOrder (data a) = Some n -> 0 < n ->
    seriesOrder (data b) = None ->
    precedes a b (getPostsBySeries slugifyStr postFilter posts s) /\
    ~ precedes b a (getPostsBySeries slugifyStr postFilter posts s).

(** The members of a series come out sorted by the triple of [tripleLe]. *)
Definition sortedByTriple (slugifyStr : string -> string)
    (postFilter : CollectionEntry -> bool) : Prop :=
  forall posts s,
    StronglySorted tripleLe (getPostsBySeries slugifyStr postFilter posts s).

(** No two posts with different ids compare equal. *)
Definition comparatorStrict : Prop :=
  forall a b, id a <> id b -> seriesCompare a b <> 0.

(** ** Sample collaborators and posts *)

(** Modelled from the spec: [./slugify] is not among the sources.  The spec
    describes the series identifier as the case-folded, punctuation-stripped,
    space-to-hyphen form of the name; this sample keeps the ASCII letters
    (lower-cased) and digits and joins the words with single hyphens. *)
Module SampleSlug.
Definition lower (c : ascii) : ascii :=
  let n := nat_of_ascii c in
  if ((65 <=? n) && (n <=? 90))%nat then ascii_of_nat (n + 32) else c.

Definition wordChar (c : ascii) : bool :=
  let n := nat_of_ascii c in
  (((48 <=? n) && (n <=? 57)) || ((97 <=? n) && (n <=? 122)))%nat.

(** [started]: a word character was emitted; [gap]: separators were seen
    since the last emitted character. *)
Fixpoint words (started gap : bool) (s : string) : string :=
  match s with
  | EmptyString => EmptyString
  | String c rest =>
      let c' := lower c in
      if wordChar c' then
        if started && gap
        then String "-"%char (String c' (words true false rest))
        else String c' (words true false rest)
      else words started true rest
  end.

Definition slugifyStr (s : string) : string := words false false s.
End SampleSlug.

(** Code-unit comparison of strings, as a stand-in for a collation. *)
Definition codeUnitCompare (a b : string) : Z :=
  match String.compare a b with
  | Lt => -1
  | Eq => 0
  | Gt => 1
  end.

Definition everyPost (_ : CollectionEntry) : bool := true.

Definition post (i : string) (name : option string) (order : option Z)
    (time : Z) : CollectionEntry :=
  mkEntry i (mkData i time name order).

(** The series of three posts of the specification's scenario, published on
    2025-10-26, 2025-11-02 and 2025-11-09. *)
Definition agent1 : CollectionEntry :=
  post "agent-1" (Some "Building a Coding Agent in Rust") (Some 1)
    1761436800000.
Definition agent2 : CollectionEntry :=
  post "agent-2" (Some "Building a Coding Agent in Rust") (Some 2)
    1762041600000.
Definition agent3 : CollectionEntry :=
  post "agent-3" (Some "Building a Coding Agent in Rust") (Some 3)
    1762646400000.

(** Two posts whose series names differ by casing and trailing space. *)
Definition axumA : CollectionEntry :=
  post "axum-a" (Some "Backend Engineering in Axum ") (Some 1) 100.
Definition axumB : CollectionEntry :=
  post "axum-b" (Some "backend engineering in axum") (Some 2) 200.

(** A series with ordered posts and a post without [seriesOrder]. *)
Definition guide1 : CollectionEntry := post "guide-1" (Some "Guide") (Some 1) 10.
Definition guide2 : CollectionEntry := post "guide-2" (Some "Guide") (Some 2) 20.
Definition guide1000 : CollectionEntry :=
  post "guide-1000" (Some "Guide") (Some 1000) 30.
Definition guideExtra : CollectionEntry := post "guide-extra" (Some "Guide") None 5.

(** Two posts with the same order and the same publication time. *)
Definition twinA : CollectionEntry := post "a" (Some "Twins") (Some 1) 50.
Definition twinB : CollectionEntry := post "b" (Some "Twins") (Some 1) 50.

(** A post whose [series] is the empty string, and one without [series]. *)
Definition blankSeries : CollectionEntry := post "blank" (Some "") None 7.
Definition standalone : CollectionEntry := post "standalone" None None 8.

(** * Properties *)

(** ** Lists *)

Lemma precedes_or {A : Type} (x y : A) (l : list A) :
  In x l -> In y l -> x <> y -> precedes x y l \/ precedes y x l.
Proof.
  intros Hx Hy Hne.
  destruct (in_split _ _ Hx) as (l1 & l2 & ->).
  apply in_app_or in Hy. destruct Hy as [Hy | [Hy | Hy]].
  - right. destruct (in_split _ _ Hy) as (m1 & m2 & ->).
    exists m1, m2, l2. now rewrite <- app_assoc.
  - now elim Hne.
  - left. destruct (in_split _ _ Hy) as (m1 & m2 & ->).
    now exists l1, m1, m2.
Qed.

Lemma sorted_precedes {A : Type} (R : A -> A -> Prop) (x y : A) (l : list A) :
  StronglySorted R l -> precedes x y l -> R x y.
Proof.
  intros Hs (l1 & l2 & l3 & ->).
  induction l1 as [| z l1 IH]; simpl in Hs.
  - apply StronglySorted_inv in Hs. destruct Hs as [_ Hall].
    rewrite Forall_forall in Hall. apply Hall.
    apply in_or_app. right. now left.
  - apply StronglySorted_inv in Hs. now apply IH.
Qed.

Lemma sorted_impl {A : Type} (R R' : A -> A -> Prop) (l : list A) :
  (forall a b, R a b -> R' a b) -> StronglySorted R l -> StronglySorted R' l.
Proof.
  intros HR. induction 1 as [| a l _ IH Hall]; constructor; [exact IH |].
  eapply Forall_impl; [| exact Hall]. intros b. apply HR.
Qed.

Lemma filter_all {A : Type} (f : A -> bool) (l : list A) :
  (forall x, In x l -> f x = true) -> filter f l = l.
Proof.
  induction l as [| a l IH]; simpl; intros H; [reflexivity |].
  rewrite (H a) by now left. f_equal. apply IH. intros; apply H; now right.
Qed.

Lemma filter_none {A : Type} (f : A -> bool) (l : list A) :
  (forall x, In x l -> f x = false) -> filter f l = [].
Proof.
  induction l as [| a l IH]; simpl; intros H; [reflexivity |].
  rewrite (H a) by now left. apply IH. intros; apply H; now right.
Qed.

Lemma filter_filter {A : Type} (f g : A -> bool) (l : list A) :
  filter g (filter f l) = filter (fun x => f x && g x) l.
Proof.
  induction l as [| a l IH]; simpl; [reflexivity |].
  destruct (f a); simpl; [destruct (g a) |]; now rewrite IH.
Qed.

Lemma find_filter {A : Type} (f g : A -> bool) (l : list A) :
  find g (filter f l) = find (fun x => f x && g x) l.
Proof.
  induction l as [| a l IH]; simpl; [reflexivity |].
  destruct (f a); simpl; [destruct (g a) |]; now rewrite ?IH.
Qed.

Lemma filter_key_single {A : Type} (key : A -> string) (x : A) (l : list A) :
  NoDup (map key l) -> In x l ->
  filter (fun y => (key y =? key x)%string) l = [x].
Proof.
  induction l as [| a l IH]; simpl; intros Hnd Hin; [easy |].
  apply NoDup_cons_iff in Hnd. destruct Hnd as [Hni Hnd].
  destruct Hin as [-> | Hin].
  - rewrite String.eqb_refl. f_equal. apply filter_none.
    intros y Hy. apply String.eqb_neq. intros E. apply Hni.
    rewrite <- E. now apply in_map.
  - destruct (String.eqb_spec (key a) (key x)) as [E | _].
    + elim Hni. rewrite E. now apply in_map.
    + now apply IH.
Qed.

(** ** Sorting *)

Section SortFacts.
Context {A : Type}.
Variable cmp : A -> A -> Z.

Lemma insert_perm (x : A) (l : list A) :
  Permutation (JsArray.insert cmp x l) (x :: l).
Proof.
  induction l as [| y l IH]; simpl; [reflexivity |].
  destruct (cmp x y <=? 0); [reflexivity |].
  rewrite IH. apply perm_swap.
Qed.

Lemma sort_perm (l : list A) : Permutation (JsArray.sort cmp l) l.
Proof.
  induction l as [| x l IH]; simpl; [reflexivity |].
  rewrite insert_perm. now constructor.
Qed.

Lemma sort_In (l : list A) (x : A) : In x (JsArray.sort cmp l) <-> In x l.
Proof.
  split; apply Permutation_in; [| symmetry]; apply sort_perm.
Qed.

Lemma sort_length (l : list A) :
  List.length (JsArray.sort cmp l) = List.length l.
Proof. apply Permutation_length, sort_perm. Qed.

(** A class of elements that may all stand before one another keeps its
    input order: the sort is stable. *)
Lemma insert_filter (P : A -> bool) (x : A) (l : list A) :
  (forall a b, P a = true -> P b = true -> cmp a b <= 0) ->
  filter P (JsArray.insert cmp x l) = filter P (x :: l).
Proof.
  intros HP. induction l as [| y l IH]; [reflexivity |].
  cbn [JsArray.insert]. destruct (Z.leb_spec (cmp x y) 0) as [_ | Hgt].
  - reflexivity.
  - cbn [filter] in *. rewrite IH.
    destruct (P x) eqn:Px, (P y) eqn:Py; try reflexivity.
    specialize (HP x y Px Py). lia.
Qed.

Lemma sort_filter (P : A -> bool) (l : list A) :
  (forall a b, P a = true -> P b = true -> cmp a b <= 0) ->
  filter P (JsArray.sort cmp l) = filter P l.
Proof.
  intros HP. induction l as [| x l IH]; [reflexivity |].
  cbn [JsArray.sort]. rewrite insert_filter by assumption.
  cbn [filter]. now rewrite IH.
Qed.

(** The comparator is consistent: it compares every pair one way or the
    other, and transitively. *)
Hypothesis cmp_total : forall a b, 0 < cmp a b -> cmp b a <= 0.
Hypothesis cmp_trans : forall a b c, cmp a b <= 0 -> cmp b c <= 0 -> cmp a c <= 0.

Lemma cmp_refl (a : A) : cmp a a <= 0.
Proof. destruct (Z_lt_le_dec 0 (cmp a a)); auto. Qed.

Lemma insert_sorted (x : A) (l : list A) :
  StronglySorted (cmpLe cmp) l -> StronglySorted (cmpLe cmp) (JsArray.insert cmp x l).
Proof.
  induction 1 as [| y l Hs IH Hall]; simpl.
  - repeat constructor.
  - destruct (Z.leb_spec (cmp x y) 0) as [Hle | Hgt].
    + constructor; [now constructor |].
      constructor; [exact Hle |].
      eapply Forall_impl; [| exact Hall].
      intros z Hz. now apply cmp_trans with y.
    + constructor; [exact IH |].
      eapply Permutation_Forall; [symmetry; apply insert_perm |].
      constructor; [now apply cmp_total | exact Hall].
Qed.

Lemma sort_sorted (l : list A) : StronglySorted (cmpLe cmp) (JsArray.sort cmp l).
Proof.
  induction l as [| x l IH]; simpl; [constructor | now apply insert_sorted].
Qed.

Lemma sort_sorted_id (l : list A) :
  StronglySorted (cmpLe cmp) l -> JsArray.sort cmp l = l.
Proof.
  induction 1 as [| x l Hs IH Hall]; [reflexivity |].
  cbn [JsArray.sort]. rewrite IH.
  destruct l as [| y l]; [reflexivity |].
  cbn [JsArray.insert]. apply Forall_inv in Hall. unfold cmpLe in Hall.
  now destruct (Z.leb_spec (cmp x y) 0); [| lia].
Qed.

Lemma tied_le (k a b : A) : tied cmp k a = true -> tied cmp k b = true -> cmp a b <= 0.
Proof.
  unfold tied. rewrite !andb_true_iff, !Z.leb_le.
  intros [Ha _] [_ Hb]. now apply cmp_trans with k.
Qed.

Lemma sort_stable (k : A) (l : list A) :
  filter (tied cmp k) (JsArray.sort cmp l) = filter (tied cmp k) l.
Proof. apply sort_filter. apply tied_le. Qed.

Lemma sorted_head_le (x y : A) (l : list A) :
  StronglySorted (cmpLe cmp) (x :: l) -> In y (x :: l) -> cmp x y <= 0.
Proof.
  intros Hs [<- | Hin]; [apply cmp_refl |].
  apply StronglySorted_inv in Hs. destruct Hs as [_ Hall].
  rewrite Forall_forall in Hall. now apply Hall.
Qed.

(** Two sorted lists with the same classes of ties, each in the same
    order, are the same list. *)
Lemma sorted_tied_eq (l1 : list A) :
  forall l2,
    StronglySorted (cmpLe cmp) l1 -> StronglySorted (cmpLe cmp) l2 ->
    (forall k, filter (tied cmp k) l1 = filter (tied cmp k) l2) ->
    l1 = l2.
Proof.
  assert (Hself : forall a, tied cmp a a = true).
  { intros a. unfold tied. pose proof (cmp_refl a).
    apply andb_true_iff; split; now apply Z.leb_le. }
  induction l1 as [| a t1 IH]; intros [| b t2] H1 H2 Hcl.
  - reflexivity.
  - specialize (Hcl b). simpl in Hcl. now rewrite Hself in Hcl.
  - specialize (Hcl a). simpl in Hcl. now rewrite Hself in Hcl.
  - assert (Ha : In a (b :: t2)).
    { assert (H : In a (filter (tied cmp a) (b :: t2))).
      { rewrite <- Hcl. simpl. rewrite Hself. now left. }
      now apply filter_In in H. }
    assert (Hb : In b (a :: t1)).
    { assert (H : In b (filter (tied cmp b) (a :: t1))).
      { rewrite Hcl. simpl. rewrite Hself. now left. }
      now apply filter_In in H. }
    pose proof (sorted_head_le _ _ _ H2 Ha) as Hba.
    pose proof (sorted_head_le _ _ _ H1 Hb) as Hab.
    assert (Hty : tied cmp a b = true).
    { unfold tied. apply andb_true_iff; split; now apply Z.leb_le. }
    assert (E : a = b).
    { pose proof (Hcl a) as H. simpl in H. rewrite Hself, Hty in H.
      now injection H. }
    subst b. f_equal. apply IH.
    + now apply StronglySorted_inv in H1.
    + now apply StronglySorted_inv in H2.
    + intros k. specialize (Hcl k). simpl in Hcl.
      destruct (tied cmp k a); [now injection Hcl | exact Hcl].
Qed.

(** The result of the sort does not depend on the sorting algorithm: it
    is the only sorted arrangement that keeps every class of ties in its
    input order. *)
Lemma sort_unique (l l' : list A) :
  StronglySorted (cmpLe cmp) l' ->
  (forall k, filter (tied cmp k) l' = filter (tied cmp k) l) ->
  l' = JsArray.sort cmp l.
Proof.
  intros Hs Hcl. apply sorted_tied_eq; [exact Hs | apply sort_sorted |].
  intros k. now rewrite sort_stable.
Qed.
End SortFacts.

(** ** Searching and indexing *)

Section IndexFacts.
Context {A : Type}.
Variable f : A -> bool.

Lemma findIndexFrom_first (l : list A) :
  forall (n : nat) (i : Z),
    firstAt f l n -> JsArray.findIndexFrom f l i = i + Z.of_nat n.
Proof.
  induction l as [| a l IH]; intros n i [(x & Hx & Hfx) Hfirst].
  - now destruct n.
  - destruct n as [| n]; simpl in *.
    + injection Hx as ->. rewrite Hfx. lia.
    + rewrite (Hfirst 0%nat a) by (reflexivity || lia).
      rewrite (IH n (i + 1)); [lia |].
      split; [now exists x |].
      intros j y Hj Hy. apply (Hfirst (S j) y); [lia | exact Hy].
Qed.

Lemma findIndexFrom_cases (l : list A) :
  forall i, 0 <= i ->
    (JsArray.findIndexFrom f l i = -1 /\ forall x, In x l -> f x = false) \/
    (exists n, JsArray.findIndexFrom f l i = i + Z.of_nat n /\ firstAt f l n).
Proof.
  induction l as [| a l IH]; intros i Hi; simpl.
  - left. split; [reflexivity | easy].
  - destruct (f a) eqn:Fa.
    + right. exists 0%nat. split; [lia |]. split.
      * now exists a.
      * intros j y Hj. lia.
    + destruct (IH (i + 1)) as [[E Hall] | (n & E & (x & Hx & Hfx) & Hfirst)];
        [lia | |].
      * left. split; [exact E |]. intros x [<- | Hx]; auto.
      * right. exists (S n). split; [lia |]. split.
        -- now exists x.
        -- intros [| j] y Hj Hy; simpl in Hy.
           ++ now injection Hy as <-.
           ++ apply (Hfirst j y); [lia | exact Hy].
Qed.

Lemma findIndex_first (l : list A) (n : nat) :
  firstAt f l n -> JsArray.findIndex f l = Z.of_nat n.
Proof. intros H. unfold JsArray.findIndex. now rewrite findIndexFrom_first with (n := n). Qed.

Lemma findIndex_cases (l : list A) :
  (JsArray.findIndex f l = -1 /\ forall x, In x l -> f x = false) \/
  (exists n, JsArray.findIndex f l = Z.of_nat n /\ firstAt f l n).
Proof.
  unfold JsArray.findIndex.
  destruct (findIndexFrom_cases l 0) as [H | (n & E & H)]; [lia | now left |].
  right. exists n. now split.
Qed.

Lemma at_nat (l : list A) (n : nat) :
  JsArray.at_ l (Z.of_nat n) = nth_error l n.
Proof.
  unfold JsArray.at_. destruct (Z.ltb_spec (Z.of_nat n) 0); [lia |].
  now rewrite Nat2Z.id.
Qed.
End IndexFacts.

(** ** Maps *)

Section MapFacts.
Context {V : Type}.

Lemma get_None_keys (m : JsMap.t V) (k : string) :
  JsMap.get m k = None <-> ~ In k (keys m).
Proof.
  induction m as [| [k' v] m IH]; simpl; [tauto |].
  destruct (String.eqb_spec k' k) as [-> | Hne].
  - split; [discriminate | tauto].
  - rewrite IH. tauto.
Qed.

Lemma get_In (m : JsMap.t V) (k : string) (v : V) :
  JsMap.get m k = Some v -> In (k, v) m.
Proof.
  induction m as [| [k' v'] m IH]; simpl; [discriminate |].
  destruct (String.eqb_spec k' k) as [-> | Hne].
  - intros [= ->]. now left.
  - intros H. right. now apply IH.
Qed.

Lemma In_get (m : JsMap.t V) (k : string) (v : V) :
  NoDup (keys m) -> In (k, v) m -> JsMap.get m k = Some v.
Proof.
  induction m as [| [k' v'] m IH]; simpl; intros Hnd Hin; [easy |].
  apply NoDup_cons_iff in Hnd. destruct Hnd as [Hni Hnd].
  destruct Hin as [[= -> ->] | Hin].
  - now rewrite String.eqb_refl.
  - destruct (String.eqb_spec k' k) as [-> | Hne]; [| now apply IH].
    elim Hni. change k with (fst (k, v)). now apply in_map.
Qed.

Lemma keys_update (m : JsMap.t V) (k : string) (g : V -> V) :
  keys (JsMap.update m k g) = keys m.
Proof.
  induction m as [| [k' v] m IH]; simpl; [reflexivity |].
  destruct (k' =? k)%string; simpl; [reflexivity | now rewrite IH].
Qed.

Lemma get_update (m : JsMap.t V) (k k0 : string) (g : V -> V) :
  JsMap.get (JsMap.update m k g) k0 =
  if (k =? k0)%string then option_map g (JsMap.get m k0) else JsMap.get m k0.
Proof.
  induction m as [| [k' v] m IH]; simpl.
  - now destruct (k =? k0)%string.
  - destruct (String.eqb_spec k' k) as [-> | Hne]; simpl.
    + destruct (String.eqb_spec k k0) as [-> | Hne']; reflexivity.
    + rewrite IH. destruct (String.eqb_spec k' k0) as [-> | Hne'];
        [| reflexivity].
      now destruct (String.eqb_spec k k0) as [-> | _].
Qed.

Lemma get_app_last (m : JsMap.t V) (k k0 : string) (v : V) :
  JsMap.get (m ++ [(k, v)]) k0 =
  match JsMap.get m k0 with
  | Some w => Some w
  | None => if (k =? k0)%string then Some v else None
  end.
Proof.
  induction m as [| [k' v'] m IH]; simpl; [reflexivity |].
  now destruct (k' =? k0)%string.
Qed.

Lemma set_fresh (m : JsMap.t V) (k : string) (v : V) :
  JsMap.has m k = false -> JsMap.set m k v = m ++ [(k, v)].
Proof. unfold JsMap.set. now intros ->. Qed.

Lemma has_false (m : JsMap.t V) (k : string) :
  JsMap.has m k = false <-> JsMap.get m k = None.
Proof. unfold JsMap.has. destruct (JsMap.get m k); split; congruence. Qed.
End MapFacts.

(** ** The comparator of [getPostsBySeries] *)

Lemma seriesCompare_le (a b : CollectionEntry) :
  seriesCompare a b <= 0 <-> keyLe a b.
Proof.
  unfold seriesCompare, keyLe, sortKey; simpl.
  destruct (Z.eqb_spec (nullish (seriesOrder (data a)) 999)
              (nullish (seriesOrder (data b)) 999)); simpl; lia.
Qed.

Lemma seriesCompare_zero (a b : CollectionEntry) :
  seriesCompare a b = 0 <-> sortKey a = sortKey b.
Proof.
  unfold seriesCompare, sortKey.
  destruct (Z.eqb_spec (nullish (seriesOrder (data a)) 999)
              (nullish (seriesOrder (data b)) 999)) as [E | NE]; simpl.
  - rewrite E. split; [intros H; f_equal; lia | intros [= ->]; lia].
  - split; [lia | intros [= H _]; contradiction].
Qed.

Lemma seriesCompare_total (a b : CollectionEntry) :
  0 < seriesCompare a b -> seriesCompare b a <= 0.
Proof.
  intros H. apply seriesCompare_le.
  assert (N : ~ keyLe a b) by (rewrite <- seriesCompare_le; lia).
  unfold keyLe in *. lia.
Qed.

Lemma seriesCompare_trans (a b c : CollectionEntry) :
  seriesCompare a b <= 0 -> seriesCompare b c <= 0 -> seriesCompare a c <= 0.
Proof. rewrite !seriesCompare_le. unfold keyLe. lia. Qed.

Lemma sameKey_le (k : Z * Z) (a b : CollectionEntry) :
  sameKey k a = true -> sameKey k b = true -> seriesCompare a b <= 0.
Proof.
  unfold sameKey. rewrite !andb_true_iff, !Z.eqb_eq. intros [A1 A2] [B1 B2].
  apply seriesCompare_le. unfold keyLe. lia.
Qed.

(** [inSeries] spelled out. *)
Lemma inSeries_true (slugifyStr : string -> string) (s : string)
    (p : CollectionEntry) :
  inSeries slugifyStr s p = true <->
  exists name, series (data p) = Some name /\ name <> "" /\ slugifyStr name = s.
Proof.
  unfold inSeries. destruct (series (data p)) as [name |].
  - rewrite andb_true_iff, negb_true_iff, String.eqb_neq, String.eqb_eq.
    split.
    + intros [H1 H2]. now exists name.
    + intros (n & [= <-] & H1 & H2). now split.
  - split; [discriminate | now intros (n & H & _)].
Qed.

Lemma hasSeries_true (p : CollectionEntry) :
  hasSeries p = true <-> exists name, series (data p) = Some name /\ name <> "".
Proof.
  unfold hasSeries, truthy. destruct (series (data p)) as [name |].
  - rewrite negb_true_iff, String.eqb_neq. split.
    + intros H. now exists name.
    + now intros (n & [= <-] & H).
  - split; [discriminate | now intros (n & H & _)].
Qed.

(** ** Members of a series and their order *)

Section MemberFacts.
Variable slugifyStr : string -> string.
Variable postFilter : CollectionEntry -> bool.

Local Abbreviation getPostsBySeries := (getPostsBySeries slugifyStr postFilter).
Local Abbreviation inSeries := (inSeries slugifyStr).
Local Abbreviation eligible := (eligibleIn slugifyStr postFilter).

Lemma members_perm (posts : list CollectionEntry) (s : string) :
  Permutation (getPostsBySeries posts s) (filter (eligible s) posts).
Proof.
  unfold getPostsBySeries. rewrite sort_perm, filter_filter. reflexivity.
Qed.

Lemma members_In (posts : list CollectionEntry) (s : string)
    (p : CollectionEntry) :
  In p (getPostsBySeries posts s) <->
  In p posts /\ postFilter p = true /\ inSeries s p = true.
Proof.
  unfold getPostsBySeries. rewrite sort_In, !filter_In. tauto.
Qed.

Lemma members_sorted (posts : list CollectionEntry) (s : string) :
  StronglySorted keyLe (getPostsBySeries posts s).
Proof.
  unfold getPostsBySeries.
  apply sorted_impl with (R := cmpLe seriesCompare).
  - intros a b. apply seriesCompare_le.
  - apply sort_sorted; [apply seriesCompare_total | apply seriesCompare_trans].
Qed.

Lemma members_idem (posts : list CollectionEntry) (s : string) :
  getPostsBySeries (getPostsBySeries posts s) s = getPostsBySeries posts s.
Proof.
  set (res := getPostsBySeries posts s).
  unfold getPostsBySeries at 1. fold res.
  rewrite (filter_all postFilter), (filter_all (inSeries s)).
  - apply sort_sorted_id. unfold res, getPostsBySeries.
    apply sort_sorted; [apply seriesCompare_total | apply seriesCompare_trans].
  - intros x Hx. now apply members_In in Hx.
  - intros x Hx. now apply members_In in Hx.
Qed.

Lemma tied_sameKey (k x : CollectionEntry) :
  tied seriesCompare k x = sameKey (sortKey k) x.
Proof.
  unfold tied, sameKey. apply eq_true_iff_eq.
  rewrite !andb_true_iff, !Z.leb_le, !Z.eqb_eq, !seriesCompare_le.
  unfold keyLe. lia.
Qed.

(** The ordered members do not depend on how the sort is carried out. *)
Lemma members_unique (posts : list CollectionEntry) (s : string)
    (l : list CollectionEntry) :
  StronglySorted keyLe l ->
  (forall k, filter (sameKey k) l =
             filter (sameKey k) (filter (eligible s) posts)) ->
  l = getPostsBySeries posts s.
Proof.
  intros Hs Hcl. unfold getPostsBySeries.
  apply sort_unique;
    [apply seriesCompare_total | apply seriesCompare_trans | |].
  - apply sorted_impl with (R := keyLe); [| exact Hs].
    intros a b. apply seriesCompare_le.
  - intros k. rewrite !(filter_ext _ _ (tied_sameKey k)), Hcl.
    f_equal. symmetry. apply filter_filter.
Qed.

(** C1 (as amended): within the ordered members of a series, a post
    without [seriesOrder] is placed after every post whose [seriesOrder]
    is below the sentinel 999 that the comparator substitutes for an absent
    order, and never before it. *)
Theorem missing_order_after_orders_below_999
    (posts : list CollectionEntry) (s : string) (a b : CollectionEntry)
    (n : Z) :
  In a (getPostsBySeries posts s) ->
  In b (getPostsBySeries posts s) ->
  seriesOrder (data a) = Some n -> n < 999 ->
  seriesOrder (data b) = None ->
  precedes a b (getPostsBySeries posts s) /\
  ~ precedes b a (getPostsBySeries posts s).
Proof.
  intros Ha Hb Hoa Hn Hob.
  assert (Hnot : ~ precedes b a (getPostsBySeries posts s)).
  { intros Hp.
    pose proof (sorted_precedes _ _ _ _ (members_sorted posts s) Hp) as Hle.
    unfold keyLe, sortKey in Hle. rewrite Hoa, Hob in Hle. simpl in Hle.
    lia. }
  split; [| exact Hnot].
  destruct (precedes_or a b _ Ha Hb) as [H | H]; [| exact H | contradiction].
  intros ->. congruence.
Qed.

(** C2 (as amended): the members of a series come out sorted
    non-decreasing by the pair ([seriesOrder ?? 999], publication time);
    posts with the same pair keep the order they have in the input, and no
    other arrangement of the selected posts is sorted in that way, so the
    output is determined by the input; the comparator returns 0 exactly on
    posts with the same pair (there is no tie-break by [id]); and ordering
    an already ordered series changes nothing. *)
Theorem series_sorted_by_order_then_date_stably
    (posts : list CollectionEntry) (s : string) :
  StronglySorted keyLe (getPostsBySeries posts s) /\
  (forall k, filter (sameKey k) (getPostsBySeries posts s) =
             filter (sameKey k) (filter (eligible s) posts)) /\
  (forall l,
      StronglySorted keyLe l ->
      (forall k, filter (sameKey k) l =
                 filter (sameKey k) (filter (eligible s) posts)) ->
      l = getPostsBySeries posts s) /\
  (forall a b, seriesCompare a b = 0 <-> sortKey a = sortKey b) /\
  getPostsBySeries (getPostsBySeries posts s) s = getPostsBySeries posts s.
Proof.
  split; [apply members_sorted |].
  split; [| split; [apply members_unique |
                    split; [apply seriesCompare_zero | apply members_idem]]].
  intros k. unfold getPostsBySeries.
  rewrite sort_filter by apply sameKey_le.
  f_equal. apply filter_filter.
Qed.

(** C6: the posts returned for a series identifier are exactly the
    eligible posts whose non-empty series name normalizes to it, each as
    often as it occurs in the collection (once, when the collection has no
    repetition), and the result is empty when no post matches. *)
Theorem series_members_exact (posts : list CollectionEntry) (s : string) :
  Permutation (getPostsBySeries posts s) (filter (eligible s) posts) /\
  (forall p,
      In p (getPostsBySeries posts s) <->
      In p posts /\ postFilter p = true /\
      exists name,
        series (data p) = Some name /\ name <> "" /\ slugifyStr name = s) /\
  (NoDup posts -> NoDup (getPostsBySeries posts s)) /\
  ((forall p, In p posts -> eligible s p = false) ->
   getPostsBySeries posts s = []).
Proof.
  split; [apply members_perm |]. split; [| split].
  - intros p. rewrite members_In, inSeries_true. tauto.
  - intros Hnd. eapply Permutation_NoDup.
    + symmetry. apply members_perm.
    + now apply NoDup_filter.
  - intros Hnone. apply Permutation_nil.
    rewrite members_perm. now rewrite filter_none.
Qed.
End MemberFacts.

(** ** The series index *)

Lemma find_ext {A : Type} (f g : A -> bool) (l : list A) :
  (forall x, f x = g x) -> find f l = find g l.
Proof.
  intros E. induction l as [| a l IH]; simpl; [reflexivity |].
  now rewrite E, IH.
Qed.

Section GroupFacts.
Variable slugifyStr : string -> string.
Variable postFilter : CollectionEntry -> bool.
Variable localeCompare : string -> string -> Z.

Local Abbreviation record := (recordPost slugifyStr).
Local Abbreviation collect := (collectSeries slugifyStr postFilter).
Local Abbreviation eligible := (eligibleIn slugifyStr postFilter).
Local Abbreviation unique :=
  (getUniqueSeries slugifyStr postFilter localeCompare).

Lemma tally_cons (k : string) (q : CollectionEntry)
    (l : list CollectionEntry) :
  tally slugifyStr k (q :: l) = (if slugIs slugifyStr k q then 1 else 0) + tally slugifyStr k l.
Proof.
  unfold tally, JsArray.length. cbn [filter].
  destruct (slugIs slugifyStr k q); cbn [List.length]; lia.
Qed.

Lemma recordPost_keys (m : JsMap.t (string * Z)) (q : CollectionEntry) :
  NoDup (keys m) -> NoDup (keys (record m q)).
Proof.
  intros Hnd. unfold recordPost.
  destruct (series (data q)) as [name |]; [| exact Hnd].
  destruct (JsMap.has m (slugifyStr name)) eqn:Hhas.
  - now rewrite keys_update.
  - rewrite set_fresh by exact Hhas. unfold keys. rewrite map_app. simpl.
    apply NoDup_app; [exact Hnd | repeat constructor; easy |].
    intros k Hk [<- | []].
    apply has_false, get_None_keys in Hhas. contradiction.
Qed.

Lemma fold_keys (l : list CollectionEntry) :
  forall m, NoDup (keys m) -> NoDup (keys (fold_left record l m)).
Proof.
  induction l as [| q l IH]; intros m Hnd; simpl; [exact Hnd |].
  now apply IH, recordPost_keys.
Qed.

Lemma firstName_cons (k : string) (q : CollectionEntry)
    (l : list CollectionEntry) :
  firstName slugifyStr k (q :: l) =
  if slugIs slugifyStr k q then series (data q) else firstName slugifyStr k l.
Proof. unfold firstName. cbn [find]. now destruct (slugIs slugifyStr k q). Qed.

Ltac same_count :=
  cbn [fst snd option_map filter find List.length];
  try reflexivity; f_equal; f_equal; lia.

(** One round of the loop, read at the key [k]. *)
Lemma record_get (m : JsMap.t (string * Z)) (q : CollectionEntry)
    (k : string) :
  JsMap.get (record m q) k =
  match JsMap.get m k with
  | Some e => Some (fst e, snd e + (if slugIs slugifyStr k q then 1 else 0))
  | None =>
      if slugIs slugifyStr k q
      then option_map (fun name => (name, 1)) (series (data q))
      else None
  end.
Proof.
  unfold recordPost, slugIs.
  destruct (series (data q)) as [name |].
  2:{ destruct (JsMap.get m k) as [[n c] |]; same_count. }
  destruct (JsMap.has m (slugifyStr name)) eqn:Hhas.
  - rewrite get_update.
    destruct (String.eqb_spec (slugifyStr name) k) as [<- | Hne].
    + unfold JsMap.has in Hhas.
      now destruct (JsMap.get m (slugifyStr name)) as [[n c] |].
    + destruct (JsMap.get m k) as [[n c] |]; same_count.
  - rewrite set_fresh by exact Hhas. rewrite get_app_last.
    apply has_false in Hhas.
    destruct (String.eqb_spec (slugifyStr name) k) as [<- | Hne].
    + now rewrite Hhas.
    + destruct (JsMap.get m k) as [[n c] |]; same_count.
Qed.

(** What the loop leaves under a key: the name that created the entry
    and one count per post seen with that key. *)
Lemma fold_get (l : list CollectionEntry) :
  forall m k,
    JsMap.get (fold_left record l m) k =
    match JsMap.get m k with
    | Some e => Some (fst e, snd e + tally slugifyStr k l)
    | None =>
        match firstName slugifyStr k l with
        | Some name => Some (name, tally slugifyStr k l)
        | None => None
        end
    end.
Proof.
  induction l as [| q l IH]; intros m k.
  - unfold firstName, tally, JsArray.length. cbn [fold_left].
    destruct (JsMap.get m k) as [[n c] |]; same_count.
  - cbn [fold_left]. rewrite IH, record_get, tally_cons, firstName_cons.
    destruct (JsMap.get m k) as [[n c] |], (slugIs slugifyStr k q) eqn:E;
      try same_count.
    unfold slugIs in E.
    destruct (series (data q)); [same_count | discriminate].
Qed.

Lemma inSeries_split (k : string) (q : CollectionEntry) :
  inSeries slugifyStr k q = hasSeries q && slugIs slugifyStr k q.
Proof.
  unfold inSeries, hasSeries, truthy, slugIs.
  now destruct (series (data q)).
Qed.

Lemma eligible_filter (k : string) (posts : list CollectionEntry) :
  filter (slugIs slugifyStr k) (filter hasSeries (filter postFilter posts)) =
  filter (eligible k) posts.
Proof.
  rewrite (filter_filter postFilter hasSeries), filter_filter.
  apply filter_ext. intros q. unfold eligibleIn.
  now rewrite inSeries_split, andb_assoc.
Qed.

Lemma eligible_find (k : string) (posts : list CollectionEntry) :
  find (slugIs slugifyStr k) (filter hasSeries (filter postFilter posts)) =
  find (eligible k) posts.
Proof.
  rewrite (filter_filter postFilter hasSeries), find_filter.
  apply find_ext. intros q. unfold eligibleIn.
  now rewrite inSeries_split, andb_assoc.
Qed.

Lemma collect_keys (posts : list CollectionEntry) :
  NoDup (keys (collect posts)).
Proof. apply fold_keys. constructor. Qed.

Lemma collect_get (posts : list CollectionEntry) (k : string) :
  JsMap.get (collect posts) k =
  match find (eligible k) posts with
  | Some q =>
      match series (data q) with
      | Some name =>
          Some (name, JsArray.length (filter (eligible k) posts))
      | None => None
      end
  | None => None
  end.
Proof.
  unfold collectSeries. rewrite fold_get. simpl.
  unfold firstName, tally. rewrite eligible_find, eligible_filter.
  now destruct (find (eligible k) posts).
Qed.

Lemma unique_In (posts : list CollectionEntry) (s : Series.t) :
  In s (unique posts) <->
  JsMap.get (collect posts) (Series.series s) =
  Some (Series.seriesName s, Series.count s).
Proof.
  unfold getUniqueSeries, JsMap.entries.
  rewrite sort_In, in_map_iff. split.
  - intros ([k [n c]] & <- & Hin). simpl.
    apply In_get; [apply collect_keys | exact Hin].
  - intros H. apply get_In in H.
    exists (Series.series s, (Series.seriesName s, Series.count s)).
    split; [now destruct s | exact H].
Qed.

Lemma unique_keys (posts : list CollectionEntry) :
  NoDup (map Series.series (unique posts)).
Proof.
  unfold getUniqueSeries, JsMap.entries.
  eapply Permutation_NoDup.
  - apply Permutation_map. symmetry. apply sort_perm.
  - rewrite map_map. simpl. apply (collect_keys posts).
Qed.
End GroupFacts.

Section IndexClaims.
Variable slugifyStr : string -> string.
Variable postFilter : CollectionEntry -> bool.
Variable localeCompare : string -> string -> Z.

Local Abbreviation eligible := (eligibleIn slugifyStr postFilter).
Local Abbreviation unique :=
  (getUniqueSeries slugifyStr postFilter localeCompare).

(** C3: an eligible post with a non-empty series name is accounted for in
    exactly one summary of the index, the one whose identifier is the
    normalized name; the count of that summary is the number of eligible
    posts whose non-empty series name normalizes to that identifier; and a
    name with the same normalization leads to that same summary. *)
Theorem series_post_counted_in_one_summary
    (posts : list CollectionEntry) (p : CollectionEntry) (name : string) :
  In p posts -> postFilter p = true ->
  series (data p) = Some name -> name <> "" ->
  exists s,
    summariesOf (slugifyStr name) (unique posts) = [s] /\
    Series.series s = slugifyStr name /\
    Series.count s =
      JsArray.length (filter (eligible (slugifyStr name)) posts) /\
    (forall name',
        slugifyStr name' = slugifyStr name ->
        summariesOf (slugifyStr name') (unique posts) = [s]).
Proof.
  intros Hin Hpf Hs Hne.
  set (k := slugifyStr name).
  assert (Hel : eligible k p = true).
  { unfold eligibleIn. rewrite Hpf. apply inSeries_true. now exists name. }
  destruct (find (eligible k) posts) as [q |] eqn:Hfind.
  2:{ rewrite (find_none _ _ Hfind p Hin) in Hel. discriminate. }
  destruct (find_some _ _ Hfind) as [_ Hq].
  unfold eligibleIn in Hq. apply andb_true_iff in Hq. destruct Hq as [_ Hq].
  apply inSeries_true in Hq. destruct Hq as (n' & Hn' & _ & _).
  pose proof (collect_get slugifyStr postFilter posts k) as Hget.
  rewrite Hfind, Hn' in Hget.
  set (s := Series.mk k n' (JsArray.length (filter (eligible k) posts))).
  assert (Hs_in : In s (unique posts)) by now apply unique_In.
  assert (Hone : summariesOf k (unique posts) = [s]).
  { apply (filter_key_single Series.series s); [apply unique_keys | exact Hs_in]. }
  exists s. repeat split; try assumption.
  intros name' E. now rewrite E.
Qed.

(** C7: the display name of every summary is the raw series name of the
    first eligible post, in the order of the input, whose non-empty series
    name normalizes to the summary's identifier. *)
Theorem display_name_is_first_posts_name
    (posts : list CollectionEntry) (s : Series.t) :
  In s (unique posts) ->
  exists p,
    find (eligible (Series.series s)) posts = Some p /\
    series (data p) = Some (Series.seriesName s).
Proof.
  intros Hin. apply unique_In in Hin. rewrite collect_get in Hin.
  destruct (find (eligible (Series.series s)) posts) as [q |];
    [| discriminate].
  exists q. split; [reflexivity |].
  destruct (series (data q)); [| discriminate].
  now injection Hin as -> _.
Qed.

(** C8: the index holds at most one summary per identifier; when the
    collation is a consistent comparison it is sorted non-decreasing by
    display name; and it is empty when no eligible post carries a series. *)
Theorem series_index_distinct_and_sorted (posts : list CollectionEntry) :
  (forall a b, 0 < localeCompare a b -> localeCompare b a <= 0) ->
  (forall a b c,
      localeCompare a b <= 0 -> localeCompare b c <= 0 ->
      localeCompare a c <= 0) ->
  NoDup (map Series.series (unique posts)) /\
  StronglySorted (nameLe localeCompare) (unique posts) /\
  ((forall p, In p posts -> postFilter p && hasSeries p = false) ->
   unique posts = []).
Proof.
  intros Htotal Htrans. split; [apply unique_keys |]. split.
  - unfold getUniqueSeries.
    apply (sort_sorted (byDisplayName localeCompare)); unfold byDisplayName.
    + intros a b. apply Htotal.
    + intros a b c. apply Htrans.
  - intros Hnone. unfold getUniqueSeries, collectSeries.
    rewrite filter_filter, filter_none by exact Hnone. reflexivity.
Qed.
End IndexClaims.

(** ** Navigation inside a series *)

Section NavigationFacts.
Variable slugifyStr : string -> string.
Variable postFilter : CollectionEntry -> bool.

Local Abbreviation members := (getPostsBySeries slugifyStr postFilter).
Local Abbreviation navigation :=
  (getSeriesNavigation slugifyStr postFilter).

Lemma firstAt_lt {A : Type} (f : A -> bool) (l : list A) (i : nat) :
  firstAt f l i -> (i < List.length l)%nat.
Proof.
  intros [(x & Hx & _) _]. apply nth_error_Some. congruence.
Qed.

Lemma navigation_falsy (posts : list CollectionEntry)
    (cur : CollectionEntry) :
  truthy (series (data cur)) = false -> navigation posts cur = None.
Proof.
  unfold getSeriesNavigation, truthy.
  destruct (series (data cur)) as [name |]; [| reflexivity].
  now destruct (name =? "")%string.
Qed.

Lemma navigation_at (posts : list CollectionEntry) (cur : CollectionEntry)
    (name : string) (i : nat) :
  series (data cur) = Some name -> name <> "" ->
  firstAt (sameId cur) (members posts (slugifyStr name)) i ->
  navigation posts cur =
  Some (resultAt (members posts (slugifyStr name)) i name).
Proof.
  intros Hs Hne Hfirst. pose proof (firstAt_lt _ _ _ Hfirst) as Hlt.
  unfold getSeriesNavigation. rewrite Hs.
  apply String.eqb_neq in Hne. rewrite Hne.
  fold (sameId cur). rewrite (findIndex_first _ _ _ Hfirst).
  set (l := members posts (slugifyStr name)) in *.
  destruct (Z.eqb_spec (Z.of_nat i) (-1)) as [E | _]; [lia |].
  unfold resultAt, JsArray.length. f_equal. f_equal.
  - rewrite Z.gtb_ltb.
    destruct (Z.ltb_spec 0 (Z.of_nat i)), (Nat.ltb_spec 0 i);
      try lia; [| reflexivity].
    replace (Z.of_nat i - 1) with (Z.of_nat (i - 1)) by lia. apply at_nat.
  - destruct (Z.ltb_spec (Z.of_nat i) (Z.of_nat (List.length l) - 1)),
      (Nat.ltb_spec i (List.length l - 1)); try lia; [| reflexivity].
    replace (Z.of_nat i + 1) with (Z.of_nat (i + 1)) by lia. apply at_nat.
Qed.

Lemma navigation_missing (posts : list CollectionEntry)
    (cur : CollectionEntry) (name : string) :
  series (data cur) = Some name ->
  (forall p, In p (members posts (slugifyStr name)) -> id p <> id cur) ->
  navigation posts cur = None.
Proof.
  intros Hs Hall. unfold getSeriesNavigation. rewrite Hs.
  destruct (name =? "")%string; [reflexivity |].
  fold (sameId cur).
  destruct (findIndex_cases (sameId cur) (members posts (slugifyStr name)))
    as [[-> _] | (n & _ & (x & Hx & Hfx) & _)]; [reflexivity |].
  apply nth_error_In in Hx. apply String.eqb_eq in Hfx.
  now elim (Hall x Hx).
Qed.

(** The two outcomes of the navigation of a post with a series. *)
Lemma navigation_cases (posts : list CollectionEntry)
    (cur : CollectionEntry) (name : string) :
  series (data cur) = Some name -> name <> "" ->
  (navigation posts cur = None /\
   forall p, In p (members posts (slugifyStr name)) -> id p <> id cur) \/
  (exists i,
      firstAt (sameId cur) (members posts (slugifyStr name)) i /\
      navigation posts cur =
      Some (resultAt (members posts (slugifyStr name)) i name)).
Proof.
  intros Hs Hne.
  destruct (findIndex_cases (sameId cur) (members posts (slugifyStr name)))
    as [[_ Hall] | (i & _ & Hfirst)].
  - left.
    assert (Hid : forall p,
               In p (members posts (slugifyStr name)) -> id p <> id cur).
    { intros p Hp. apply String.eqb_neq. now apply Hall. }
    split; [now apply navigation_missing with name | exact Hid].
  - right. exists i. split; [exact Hfirst | now apply navigation_at].
Qed.

Lemma member_series (posts : list CollectionEntry) (s : string)
    (p : CollectionEntry) :
  In p (members posts s) ->
  exists name,
    series (data p) = Some name /\ name <> "" /\ slugifyStr name = s.
Proof.
  intros Hp. apply members_In in Hp. now apply inSeries_true.
Qed.

Lemma firstAt_unique_id (l : list CollectionEntry) (i : nat)
    (p : CollectionEntry) :
  NoDup (map id l) -> nth_error l i = Some p -> firstAt (sameId p) l i.
Proof.
  intros Hnd Hp. split.
  - exists p. split; [exact Hp | apply String.eqb_refl].
  - intros j y Hj Hy. apply String.eqb_neq. intros E.
    rewrite NoDup_nth_error in Hnd.
    assert (j = i); [| lia].
    apply Hnd.
    + rewrite length_map. apply nth_error_Some. congruence.
    + now rewrite (map_nth_error id _ _ Hy), (map_nth_error id _ _ Hp), E.
Qed.

Lemma navigation_name (posts : list CollectionEntry)
    (cur : CollectionEntry) (r : SeriesNavigation.t) :
  navigation posts cur = Some r ->
  series (data cur) = Some (SeriesNavigation.seriesName r).
Proof.
  unfold getSeriesNavigation.
  destruct (series (data cur)) as [name |]; [| discriminate].
  destruct (name =? "")%string; [discriminate |].
  destruct (_ =? -1); [discriminate |].
  now intros [= <-].
Qed.

(** C4: a current post found (first, by [id]) at position [i] of the
    ordered members of its series gets the member at [i-1] as previous post
    when [i > 0] and none otherwise, the member at [i+1] as next post when
    [i < length-1] and none otherwise, position [i+1] and total [length];
    so the first member has no previous post, the last member (posts having
    distinct ids) has no next post, and the only member of a series has
    neither, at position 1 of 1. *)
Theorem navigation_position_and_neighbours (posts : list CollectionEntry) :
  (forall cur name i,
      series (data cur) = Some name -> name <> "" ->
      firstAt (sameId cur) (members posts (slugifyStr name)) i ->
      navigation posts cur =
      Some (resultAt (members posts (slugifyStr name)) i name)) /\
  (forall s p t,
      members posts s = p :: t ->
      exists r,
        navigation posts p = Some r /\
        SeriesNavigation.prevPost r = None /\
        SeriesNavigation.currentIndex r = 1 /\
        SeriesNavigation.totalPosts r = JsArray.length (p :: t)) /\
  (forall s p t,
      members posts s = t ++ [p] -> NoDup (map id (t ++ [p])) ->
      exists r,
        navigation posts p = Some r /\
        SeriesNavigation.nextPost r = None /\
        SeriesNavigation.currentIndex r = SeriesNavigation.totalPosts r /\
        SeriesNavigation.totalPosts r = JsArray.length (t ++ [p])) /\
  (forall s p,
      members posts s = [p] ->
      exists name,
        series (data p) = Some name /\
        navigation posts p = Some (SeriesNavigation.mk None None 1 1 name)).
Proof.
  assert (Hfirst : forall s p t,
             members posts s = p :: t ->
             exists name,
               series (data p) = Some name /\
               navigation posts p = Some (resultAt (p :: t) 0 name)).
  { intros s p t E.
    destruct (member_series posts s p) as (name & Hs & Hne & Hslug).
    { rewrite E. now left. }
    exists name. split; [exact Hs |].
    rewrite <- E, <- Hslug. apply navigation_at; try assumption.
    rewrite Hslug, E. split.
    - exists p. split; [reflexivity | apply String.eqb_refl].
    - intros j y Hj. lia. }
  split; [intros cur name i; apply navigation_at |].
  split; [| split].
  - intros s p t E. destruct (Hfirst s p t E) as (name & _ & Hnav).
    eexists. split; [exact Hnav |]. unfold JsArray.length. simpl.
    repeat split; lia.
  - intros s p t E Hnd.
    destruct (member_series posts s p) as (name & Hs & Hne & Hslug).
    { rewrite E. apply in_or_app. right. now left. }
    assert (Hp : nth_error (t ++ [p]) (List.length t) = Some p).
    { rewrite nth_error_app2, Nat.sub_diag by lia. reflexivity. }
    pose proof (firstAt_unique_id _ _ _ Hnd Hp) as Hat.
    rewrite <- E, <- Hslug in Hat.
    exists (resultAt (members posts (slugifyStr name)) (List.length t) name).
    split; [now apply navigation_at |].
    rewrite Hslug, E. unfold resultAt, JsArray.length.
    cbn [SeriesNavigation.nextPost SeriesNavigation.currentIndex
         SeriesNavigation.totalPosts].
    rewrite length_app. cbn [List.length].
    destruct (Nat.ltb_spec (List.length t) (List.length t + 1 - 1));
      [lia |].
    repeat split; lia.
  - intros s p E. destruct (Hfirst s p [] E) as (name & Hs & Hnav).
    exists name. split; [exact Hs | exact Hnav].
Qed.

(** C5: the navigation is a total function; its result is null exactly
    when the current post has no series (an absent or empty name) or no
    member of its series, as selected and ordered from the collection, has
    its id; every other result is populated: a position between 1 and the
    total, a previous post except at position 1 and a next post except at
    the last position (no array read falls outside the members). *)
Theorem navigation_null_exactly_without_series_or_post
    (posts : list CollectionEntry) (cur : CollectionEntry) :
  (navigation posts cur = None <->
   truthy (series (data cur)) = false \/
   exists name,
     series (data cur) = Some name /\
     forall p, In p (members posts (slugifyStr name)) -> id p <> id cur) /\
  (forall r,
      navigation posts cur = Some r ->
      1 <= SeriesNavigation.currentIndex r <= SeriesNavigation.totalPosts r /\
      (SeriesNavigation.prevPost r = None <->
       SeriesNavigation.currentIndex r = 1) /\
      (SeriesNavigation.nextPost r = None <->
       SeriesNavigation.currentIndex r = SeriesNavigation.totalPosts r)).
Proof.
  split.
  - split.
    + intros Hnone. destruct (truthy (series (data cur))) eqn:Ht;
        [right | now left].
      apply (hasSeries_true cur) in Ht. destruct Ht as (name & Hs & Hne).
      exists name. split; [exact Hs |].
      destruct (navigation_cases posts cur name Hs Hne)
        as [[_ Hall] | (i & _ & Hnav)]; [exact Hall | congruence].
    + intros [Hf | (name & Hs & Hall)].
      * now apply navigation_falsy.
      * now apply navigation_missing with name.
  - intros r Hr.
    destruct (truthy (series (data cur))) eqn:Ht.
    2:{ rewrite navigation_falsy in Hr by exact Ht. discriminate. }
    apply (hasSeries_true cur) in Ht. destruct Ht as (name & Hs & Hne).
    destruct (navigation_cases posts cur name Hs Hne)
      as [[Hnone _] | (i & Hat & Hnav)]; [congruence |].
    rewrite Hnav in Hr. injection Hr as <-.
    pose proof (firstAt_lt _ _ _ Hat) as Hlt.
    set (l := members posts (slugifyStr name)) in *.
    unfold resultAt.
    cbn [SeriesNavigation.prevPost SeriesNavigation.nextPost
         SeriesNavigation.currentIndex SeriesNavigation.totalPosts].
    split; [lia |]. split.
    + destruct (Nat.ltb_spec 0 i).
      * rewrite nth_error_None. lia.
      * split; [lia | reflexivity].
    + destruct (Nat.ltb_spec i (List.length l - 1)).
      * rewrite nth_error_None. lia.
      * split; [lia | reflexivity].
Qed.

(** C10: the series name of a navigation result is the current post's
    own raw series name; hence two posts with different raw names, even
    names with the same normalization, get different names in their
    results. *)
Theorem navigation_reports_raw_series_name
    (posts : list CollectionEntry) (cur : CollectionEntry)
    (r : SeriesNavigation.t) :
  navigation posts cur = Some r ->
  series (data cur) = Some (SeriesNavigation.seriesName r) /\
  (forall q rq,
      navigation posts q = Some rq ->
      series (data q) <> series (data cur) ->
      SeriesNavigation.seriesName rq <> SeriesNavigation.seriesName r).
Proof.
  intros Hr. pose proof (navigation_name _ _ _ Hr) as Hn.
  split; [exact Hn |].
  intros q rq Hq Hdiff E. apply Hdiff.
  rewrite (navigation_name _ _ _ Hq), Hn. now rewrite E.
Qed.
End NavigationFacts.

(** ** Posts whose series is the empty string *)

Section EmptyNameFacts.
Variable slugifyStr : string -> string.
Variable postFilter : CollectionEntry -> bool.
Variable localeCompare : string -> string -> Z.

(** C9: a post whose [series] field is the empty string belongs to no
    series: the series index is the same with and without it, it is among
    the members of no identifier, and its navigation is null. *)
Theorem empty_series_name_is_no_series (p : CollectionEntry) :
  series (data p) = Some "" ->
  (forall before after,
      getUniqueSeries slugifyStr postFilter localeCompare
        (before ++ p :: after) =
      getUniqueSeries slugifyStr postFilter localeCompare
        (before ++ after)) /\
  (forall posts s, ~ In p (getPostsBySeries slugifyStr postFilter posts s)) /\
  (forall posts, getSeriesNavigation slugifyStr postFilter posts p = None).
Proof.
  intros Hs.
  assert (Hno : hasSeries p = false).
  { unfold hasSeries. now rewrite Hs. }
  split; [| split].
  - intros before after. unfold getUniqueSeries, collectSeries.
    rewrite !filter_filter, !filter_app. cbn [filter].
    now rewrite Hno, andb_false_r.
  - intros posts s Hin. apply member_series in Hin.
    destruct Hin as (name & Hname & Hne & _). congruence.
  - intros posts. apply navigation_falsy. exact Hno.
Qed.
End EmptyNameFacts.

(** ** The index and the member lists together *)

Lemma filter_perm {A : Type} (f : A -> bool) (l l' : list A) :
  Permutation l l' -> Permutation (filter f l) (filter f l').
Proof.
  induction 1 as [| a l l' _ IH | a b l | l l' l'' _ IH1 _ IH2]; simpl.
  - constructor.
  - destruct (f a); [now constructor | exact IH].
  - destruct (f a), (f b); try reflexivity. apply perm_swap.
  - now transitivity (filter f l').
Qed.

Lemma perm_short {A : Type} (l l' : list A) :
  Permutation l l' -> (List.length l <= 1)%nat -> l = l'.
Proof.
  intros Hp Hlen. destruct l as [| a [| b l]]; simpl in Hlen; [| | lia].
  - symmetry. now apply Permutation_nil.
  - symmetry. now apply Permutation_length_1_inv.
Qed.

Lemma flat_map_perm_ext {A B : Type} (f g : A -> list B) (l : list A) :
  (forall a, In a l -> Permutation (f a) (g a)) ->
  Permutation (flat_map f l) (flat_map g l).
Proof.
  induction l as [| a l IH]; simpl; intros H; [constructor |].
  apply Permutation_app; [apply H; now left |].
  apply IH. intros b Hb. apply H. now right.
Qed.

Lemma flat_map_map {A B C : Type} (g : A -> B) (f : B -> list C)
    (l : list A) :
  flat_map f (map g l) = flat_map (fun a => f (g a)) l.
Proof. induction l as [| a l IH]; simpl; [reflexivity | now rewrite IH]. Qed.

(** Splitting a list by a selector that puts every element under exactly
    one of the keys, and gluing the parts, rearranges the list. *)
Section Partition.
Context {A : Type}.
Variable sel : string -> A -> bool.

Lemma parts_without (x : A) (l : list A) (ks : list string) :
  (forall k, In k ks -> sel k x = false) ->
  flat_map (fun k => filter (sel k) (x :: l)) ks =
  flat_map (fun k => filter (sel k) l) ks.
Proof.
  induction ks as [| k ks IH]; intros H; [reflexivity |].
  cbn [flat_map].
  change (filter (sel k) (x :: l))
    with (if sel k x then x :: filter (sel k) l else filter (sel k) l).
  rewrite (H k) by now left.
  f_equal. apply IH. intros k' Hk'. apply H. now right.
Qed.

Lemma parts_with (x : A) (l : list A) (k0 : string) (ks : list string) :
  NoDup ks -> In k0 ks ->
  (forall k, In k ks -> (sel k x = true <-> k = k0)) ->
  Permutation (flat_map (fun k => filter (sel k) (x :: l)) ks)
    (x :: flat_map (fun k => filter (sel k) l) ks).
Proof.
  induction ks as [| k ks IH]; intros Hnd Hin Hsel; [easy |].
  apply NoDup_cons_iff in Hnd. destruct Hnd as [Hni Hnd].
  cbn [flat_map].
  change (filter (sel k) (x :: l))
    with (if sel k x then x :: filter (sel k) l else filter (sel k) l).
  destruct (sel k x) eqn:Hk.
  - assert (k = k0) by (apply Hsel; [now left | exact Hk]). subst k0.
    rewrite parts_without; [reflexivity |].
    intros k' Hk'. destruct (sel k' x) eqn:E; [| reflexivity].
    assert (k' = k) by (apply Hsel; [now right | exact E]). now subst.
  - destruct Hin as [-> | Hin].
    { assert (sel k0 x = true) by (apply Hsel; [now left | reflexivity]).
      congruence. }
    rewrite IH; try assumption.
    + now rewrite <- Permutation_middle.
    + intros k' Hk'. apply Hsel. now right.
Qed.

Lemma partition_perm (l : list A) (ks : list string) :
  NoDup ks ->
  (forall x, In x l ->
     exists k0, In k0 ks /\ forall k, In k ks -> (sel k x = true <-> k = k0)) ->
  Permutation (flat_map (fun k => filter (sel k) l) ks) l.
Proof.
  intros Hnd. induction l as [| x l IH]; intros H.
  - clear. induction ks as [| k ks IH]; [constructor | exact IH].
  - destruct (H x) as (k0 & Hk0 & Hsel); [now left |].
    rewrite parts_with by eassumption. constructor.
    apply IH. intros y Hy. apply H. now right.
Qed.
End Partition.

Lemma totalCount_lengths {B : Type} (g : Series.t -> list B)
    (l : list Series.t) :
  (forall s, In s l -> Series.count s = JsArray.length (g s)) ->
  totalCount l = JsArray.length (flat_map g l).
Proof.
  unfold JsArray.length.
  induction l as [| s l IH]; intros H; [reflexivity |].
  cbn [totalCount fold_right flat_map]. fold (totalCount l).
  rewrite length_app, (H s) by now left.
  rewrite IH by (intros s' Hs'; apply H; now right).
  unfold JsArray.length. lia.
Qed.

Section IndexAndMembers.
Variable slugifyStr : string -> string.
Variable postFilter : CollectionEntry -> bool.
Variable localeCompare : string -> string -> Z.

Local Abbreviation members := (getPostsBySeries slugifyStr postFilter).
Local Abbreviation eligible := (eligibleIn slugifyStr postFilter).
Local Abbreviation bearing := (seriesBearing postFilter).
Local Abbreviation unique :=
  (getUniqueSeries slugifyStr postFilter localeCompare).

Lemma members_length (posts : list CollectionEntry) (k : string) :
  JsArray.length (members posts k) =
  JsArray.length (filter (eligible k) posts).
Proof.
  unfold JsArray.length. f_equal. apply Permutation_length, members_perm.
Qed.

(** An identifier with an eligible post has its summary. *)
Lemma summary_of_slug (posts : list CollectionEntry) (k : string)
    (p : CollectionEntry) :
  In p posts -> eligible k p = true ->
  exists s,
    In s (unique posts) /\ Series.series s = k /\
    Series.count s = JsArray.length (filter (eligible k) posts).
Proof.
  intros Hin Hel.
  destruct (find (eligible k) posts) as [q |] eqn:Hfind.
  2:{ rewrite (find_none _ _ Hfind p Hin) in Hel. discriminate. }
  destruct (find_some _ _ Hfind) as [_ Hq].
  unfold eligibleIn in Hq. apply andb_true_iff in Hq. destruct Hq as [_ Hq].
  apply inSeries_true in Hq. destruct Hq as (n & Hn & _ & _).
  pose proof (collect_get slugifyStr postFilter posts k) as Hget.
  rewrite Hfind, Hn in Hget.
  exists (Series.mk k n (JsArray.length (filter (eligible k) posts))).
  split; [now apply unique_In | now split].
Qed.

(** A summary comes from an eligible post of its identifier. *)
Lemma summary_inv (posts : list CollectionEntry) (s : Series.t) :
  In s (unique posts) ->
  exists q,
    In q posts /\ eligible (Series.series s) q = true /\
    series (data q) = Some (Series.seriesName s) /\
    Series.count s =
      JsArray.length (filter (eligible (Series.series s)) posts).
Proof.
  intros Hin. apply unique_In in Hin. rewrite collect_get in Hin.
  destruct (find (eligible (Series.series s)) posts) as [q |] eqn:Hfind;
    [| discriminate].
  destruct (find_some _ _ Hfind) as [Hq Hel].
  exists q. destruct (series (data q)); [| discriminate].
  injection Hin as -> ->. now repeat split.
Qed.

Lemma bearing_eligible (p : CollectionEntry) :
  bearing p = true ->
  exists name,
    series (data p) = Some name /\ eligible (slugifyStr name) p = true.
Proof.
  unfold seriesBearing, eligibleIn. intros H.
  apply andb_true_iff in H. destruct H as [Hpf Hs]. rewrite Hpf.
  apply hasSeries_true in Hs. destruct Hs as (name & Hn & Hne).
  exists name. split; [exact Hn |]. apply inSeries_true. now exists name.
Qed.

Lemma bearing_filter (posts : list CollectionEntry) :
  filter hasSeries (filter postFilter posts) = filter bearing posts.
Proof. apply filter_filter. Qed.

Lemma members_concat (posts : list CollectionEntry) :
  Permutation (List.concat (seriesPostLists slugifyStr postFilter localeCompare posts))
    (filter bearing posts).
Proof.
  unfold seriesPostLists. rewrite <- flat_map_concat_map.
  rewrite (flat_map_perm_ext _
             (fun s => filter (slugIs slugifyStr (Series.series s))
                         (filter bearing posts))).
  2:{ intros s _. rewrite members_perm, <- bearing_filter.
      now rewrite eligible_filter. }
  rewrite <- (flat_map_map Series.series
                (fun k => filter (slugIs slugifyStr k) (filter bearing posts))).
  apply partition_perm; [apply unique_keys |].
  intros x Hx. apply filter_In in Hx. destruct Hx as [Hin Hb].
  destruct (bearing_eligible x Hb) as (name & Hn & Hel).
  destruct (summary_of_slug posts _ x Hin Hel) as (s & Hs & Hk & _).
  exists (slugifyStr name). split.
  - rewrite <- Hk. now apply in_map.
  - intros k _. unfold slugIs. rewrite Hn, String.eqb_eq.
    split; congruence.
Qed.

(** X1: the count of every summary of the index is the number of posts
    that [getPostsBySeries] returns for its identifier, and is at least 1:
    the series page built for an index entry lists as many posts as the
    index announces, and never none. *)
Theorem index_count_is_member_count
    (posts : list CollectionEntry) (s : Series.t) :
  In s (unique posts) ->
  Series.count s = JsArray.length (members posts (Series.series s)) /\
  1 <= Series.count s.
Proof.
  intros Hin. destruct (summary_inv posts s Hin) as (q & Hq & Hel & _ & Hc).
  rewrite members_length. split; [exact Hc |].
  rewrite Hc. unfold JsArray.length.
  assert (H : In q (filter (eligible (Series.series s)) posts))
    by now apply filter_In.
  destruct (filter (eligible (Series.series s)) posts); [easy |].
  cbn [List.length]. lia.
Qed.

(** X2: the identifier of every summary is the normalization of its own
    display name, the display name is not empty, and no two summaries of
    the index share a display name. *)
Theorem index_identifier_is_slug_of_display_name
    (posts : list CollectionEntry) :
  (forall s,
      In s (unique posts) ->
      slugifyStr (Series.seriesName s) = Series.series s /\
      Series.seriesName s <> "") /\
  NoDup (map Series.seriesName (unique posts)).
Proof.
  assert (H : forall s,
             In s (unique posts) ->
             slugifyStr (Series.seriesName s) = Series.series s /\
             Series.seriesName s <> "").
  { intros s Hin. destruct (summary_inv posts s Hin) as (q & _ & Hel & Hn & _).
    unfold eligibleIn in Hel. apply andb_true_iff in Hel.
    destruct Hel as [_ Hel]. apply inSeries_true in Hel.
    destruct Hel as (n & Hn' & Hne & Hslug). rewrite Hn in Hn'.
    injection Hn' as <-. now split. }
  split; [exact H |].
  apply (NoDup_map_inv slugifyStr). rewrite map_map.
  rewrite (map_ext_in _ Series.series); [apply unique_keys |].
  intros s Hs. now apply H.
Qed.

(** X3: the counts of the index add up to the number of eligible posts
    with a series: every such post is counted once, in one summary. *)
Theorem index_counts_add_up (posts : list CollectionEntry) :
  totalCount (unique posts) = JsArray.length (filter bearing posts).
Proof.
  rewrite (totalCount_lengths (fun s => members posts (Series.series s))).
  - unfold JsArray.length. f_equal. apply Permutation_length.
    rewrite flat_map_concat_map. apply members_concat.
  - intros s Hs. destruct (summary_inv posts s Hs) as (_ & _ & _ & _ & Hc).
    now rewrite members_length.
Qed.

(** X4: the index is empty exactly when no eligible post has a series;
    one such post is enough for the series page to list something. *)
Theorem index_empty_iff_no_series_post (posts : list CollectionEntry) :
  unique posts = [] <-> forall p, In p posts -> bearing p = false.
Proof.
  split.
  - intros Hnil p Hin. destruct (bearing p) eqn:Hb; [| reflexivity].
    destruct (bearing_eligible p Hb) as (name & _ & Hel).
    destruct (summary_of_slug posts _ p Hin Hel) as (s & Hs & _).
    rewrite Hnil in Hs. destruct Hs.
  - intros Hnone. unfold getUniqueSeries, collectSeries.
    rewrite bearing_filter, filter_none by exact Hnone. reflexivity.
Qed.

(** X5: an identifier is listed in the index exactly when
    [getPostsBySeries] returns at least one post for it. *)
Theorem identifier_listed_iff_members
    (posts : list CollectionEntry) (k : string) :
  In k (map Series.series (unique posts)) <-> members posts k <> [].
Proof.
  split.
  - intros Hin. apply in_map_iff in Hin. destruct Hin as (s & <- & Hs).
    destruct (summary_inv posts s Hs) as (q & Hq & Hel & _).
    intros Hnil.
    assert (H : In q (members posts (Series.series s))).
    { apply members_In. unfold eligibleIn in Hel.
      apply andb_true_iff in Hel. now destruct Hel. }
    rewrite Hnil in H. destruct H.
  - intros Hne. destruct (members posts k) as [| p t] eqn:E; [easy |].
    assert (Hp : In p (members posts k)) by (rewrite E; now left).
    apply members_In in Hp. destruct Hp as (Hin & Hpf & Hs).
    destruct (summary_of_slug posts k p Hin) as (s & Hs' & Hk & _).
    { unfold eligibleIn. now rewrite Hpf, Hs. }
    rewrite <- Hk. now apply in_map.
Qed.

(** X6: the identifiers of the index and their counts do not depend on
    the order of the collection (the display names may). *)
Theorem index_counts_ignore_collection_order
    (posts posts' : list CollectionEntry) (s : Series.t) :
  Permutation posts posts' ->
  In s (unique posts) ->
  exists s',
    In s' (unique posts') /\
    Series.series s' = Series.series s /\
    Series.count s' = Series.count s.
Proof.
  intros Hperm Hin.
  destruct (summary_inv posts s Hin) as (q & Hq & Hel & _ & Hc).
  destruct (summary_of_slug posts' (Series.series s) q) as (s' & Hs' & Hk & Hc');
    [now apply (Permutation_in _ Hperm) | exact Hel |].
  exists s'. split; [exact Hs' |]. split; [exact Hk |].
  rewrite Hc, Hc'. unfold JsArray.length. f_equal.
  apply Permutation_length, filter_perm. now symmetry.
Qed.

(** X7: the post lists of the series pages, one per entry of the index,
    hold together every eligible post with a series exactly as often as the
    collection does: no such post is left out of the series pages and none
    is listed under two series. *)
Theorem series_pages_partition_series_posts (posts : list CollectionEntry) :
  Permutation
    (List.concat (seriesPostLists slugifyStr postFilter localeCompare posts))
    (filter bearing posts) /\
  Forall (fun l => l <> [])
    (seriesPostLists slugifyStr postFilter localeCompare posts).
Proof.
  split; [apply members_concat |].
  unfold seriesPostLists. apply Forall_forall. intros l Hl.
  apply in_map_iff in Hl. destruct Hl as (s & <- & Hs).
  destruct (summary_inv posts s Hs) as (q & Hq & Hel & _).
  intros Hnil.
  assert (H : In q (members posts (Series.series s))).
  { apply members_In. unfold eligibleIn in Hel.
    apply andb_true_iff in Hel. now destruct Hel. }
  rewrite Hnil in H. destruct H.
Qed.
End IndexAndMembers.

(** ** The ordered members and the order of the collection *)

Lemma sameKey_true (k : Z * Z) (p : CollectionEntry) :
  sameKey k p = true <-> sortKey p = k.
Proof.
  unfold sameKey. rewrite andb_true_iff, !Z.eqb_eq.
  destruct (sortKey p) as [o t], k as [o' t']; simpl.
  split; [intros [-> ->]; reflexivity | intros [= -> ->]; now split].
Qed.

Lemma sameKey_short (k : Z * Z) (l : list CollectionEntry) :
  NoDup (map sortKey l) -> (List.length (filter (sameKey k) l) <= 1)%nat.
Proof.
  induction l as [| a l IH]; intros Hnd; [simpl; lia |].
  cbn [map] in Hnd. apply NoDup_cons_iff in Hnd. destruct Hnd as [Hni Hnd].
  cbn [filter]. destruct (sameKey k a) eqn:Ha; [| now apply IH].
  rewrite filter_none; [simpl; lia |].
  intros y Hy. destruct (sameKey k y) eqn:Hy'; [| reflexivity].
  apply sameKey_true in Ha, Hy'. elim Hni. rewrite Ha, <- Hy'.
  now apply in_map.
Qed.

Section MemberOrder.
Variable slugifyStr : string -> string.
Variable postFilter : CollectionEntry -> bool.

Local Abbreviation members := (getPostsBySeries slugifyStr postFilter).
Local Abbreviation eligible := (eligibleIn slugifyStr postFilter).

(** X8: when the members of a series have pairwise different pairs
    ([seriesOrder ?? 999], publication time), their order does not depend on
    the order of the collection: any rearrangement of the collection gives
    the same sequence. *)
Theorem members_ignore_collection_order
    (posts posts' : list CollectionEntry) (s : string) :
  Permutation posts posts' ->
  NoDup (map sortKey (members posts s)) ->
  members posts' s = members posts s.
Proof.
  intros Hperm Hnd. apply members_unique; [apply members_sorted |].
  intros k.
  assert (Hp : Permutation (filter (sameKey k) (members posts' s))
                 (filter (sameKey k) (filter (eligible s) posts))).
  { apply filter_perm. rewrite members_perm. apply filter_perm.
    now symmetry. }
  apply perm_short; [exact Hp |].
  rewrite (Permutation_length Hp).
  rewrite <- (Permutation_length
                (filter_perm (sameKey k) _ _ (members_perm _ _ posts s))).
  now apply sameKey_short.
Qed.
End MemberOrder.

(** ** Navigation, the members and the index together *)

Section NavigationAndIndex.
Variable slugifyStr : string -> string.
Variable postFilter : CollectionEntry -> bool.
Variable localeCompare : string -> string -> Z.

Local Abbreviation members := (getPostsBySeries slugifyStr postFilter).
Local Abbreviation navigation :=
  (getSeriesNavigation slugifyStr postFilter).
Local Abbreviation slugOf := (navSeriesSlug slugifyStr).
Local Abbreviation unique :=
  (getUniqueSeries slugifyStr postFilter localeCompare).

(** A result of the navigation, taken apart. *)
Lemma navigation_some (posts : list CollectionEntry)
    (cur : CollectionEntry) (r : SeriesNavigation.t) :
  navigation posts cur = Some r ->
  exists name i,
    series (data cur) = Some name /\ name <> "" /\
    slugOf r = slugifyStr name /\
    firstAt (sameId cur) (members posts (slugifyStr name)) i /\
    r = resultAt (members posts (slugifyStr name)) i name.
Proof.
  intros Hr. destruct (truthy (series (data cur))) eqn:Ht.
  2:{ rewrite navigation_falsy in Hr by exact Ht. discriminate. }
  apply (hasSeries_true cur) in Ht. destruct Ht as (name & Hs & Hne).
  destruct (navigation_cases slugifyStr postFilter posts cur name Hs Hne)
    as [[Hnone _] | (i & Hat & Hnav)]; [congruence |].
  rewrite Hnav in Hr. injection Hr as <-.
  exists name, i. split; [exact Hs |]. split; [exact Hne |].
  split; [reflexivity |]. split; [exact Hat | reflexivity].
Qed.

Lemma same_id_same_place (l : list CollectionEntry) (i j : nat)
    (x y : CollectionEntry) :
  NoDup (map id l) -> nth_error l i = Some x -> nth_error l j = Some y ->
  id x = id y -> i = j.
Proof.
  intros Hnd Hx Hy E. rewrite NoDup_nth_error in Hnd. apply Hnd.
  - rewrite length_map. apply nth_error_Some. congruence.
  - now rewrite (map_nth_error id _ _ Hx), (map_nth_error id _ _ Hy), E.
Qed.

(** X9: inside a series whose members have distinct ids, next and
    previous undo each other: the next post of [p] has [p] as its previous
    post, one position further, and the previous post of [p] has [p] as its
    next post, one position earlier, with the same total. *)
Theorem navigation_next_and_previous_are_inverse
    (posts : list CollectionEntry) (p q : CollectionEntry)
    (r : SeriesNavigation.t) :
  navigation posts p = Some r ->
  NoDup (map id (members posts (slugOf r))) ->
  (SeriesNavigation.nextPost r = Some q ->
   exists r',
     navigation posts q = Some r' /\
     option_map id (SeriesNavigation.prevPost r') = Some (id p) /\
     SeriesNavigation.currentIndex r' = SeriesNavigation.currentIndex r + 1 /\
     SeriesNavigation.totalPosts r' = SeriesNavigation.totalPosts r) /\
  (SeriesNavigation.prevPost r = Some q ->
   exists r',
     navigation posts q = Some r' /\
     option_map id (SeriesNavigation.nextPost r') = Some (id p) /\
     SeriesNavigation.currentIndex r' = SeriesNavigation.currentIndex r - 1 /\
     SeriesNavigation.totalPosts r' = SeriesNavigation.totalPosts r).
Proof.
  intros Hr Hnd.
  destruct (navigation_some posts p r Hr)
    as (name & i & Hs & Hne & Hslug & Hat & ->).
  rewrite Hslug in Hnd. clear Hslug.
  pose proof (firstAt_lt _ _ _ Hat) as Hlt.
  destruct Hat as [(x & Hx & Hidx) _]. apply String.eqb_eq in Hidx.
  set (l := members posts (slugifyStr name)) in *.
  assert (Hstep : forall j,
             nth_error l j = Some q ->
             exists nq,
               navigation posts q = Some (resultAt l j nq)).
  { intros j Hq.
    destruct (member_series slugifyStr postFilter posts (slugifyStr name) q)
      as (nq & Hsq & Hnq & Hslug); [now apply nth_error_In in Hq |].
    exists nq. unfold l. rewrite <- Hslug.
    apply navigation_at; try assumption.
    rewrite Hslug. now apply firstAt_unique_id. }
  unfold resultAt.
  cbn [SeriesNavigation.prevPost SeriesNavigation.nextPost
       SeriesNavigation.currentIndex SeriesNavigation.totalPosts].
  split.
  - destruct (Nat.ltb_spec i (List.length l - 1)); [| discriminate].
    intros Hq. destruct (Hstep _ Hq) as (nq & Hnav).
    eexists. split; [exact Hnav |]. unfold resultAt.
    cbn [SeriesNavigation.prevPost SeriesNavigation.currentIndex
         SeriesNavigation.totalPosts].
    destruct (Nat.ltb_spec 0 (i + 1)); [| lia].
    replace (i + 1 - 1)%nat with i by lia. rewrite Hx. simpl.
    repeat split; [congruence | lia].
  - destruct (Nat.ltb_spec 0 i); [| discriminate].
    intros Hq. destruct (Hstep _ Hq) as (nq & Hnav).
    eexists. split; [exact Hnav |]. unfold resultAt.
    cbn [SeriesNavigation.nextPost SeriesNavigation.currentIndex
         SeriesNavigation.totalPosts].
    destruct (Nat.ltb_spec (i - 1) (List.length l - 1)); [| lia].
    replace (i - 1 + 1)%nat with i by lia. rewrite Hx. simpl.
    repeat split; [congruence | lia].
Qed.

(** X10: the identifier that the navigation component links to is listed
    in the series index, and the total of the navigation is the count the
    index shows for it. *)
Theorem navigation_total_is_index_count
    (posts : list CollectionEntry) (cur : CollectionEntry)
    (r : SeriesNavigation.t) :
  navigation posts cur = Some r ->
  exists s,
    In s (unique posts) /\
    Series.series s = slugOf r /\
    Series.count s = SeriesNavigation.totalPosts r.
Proof.
  intros Hr.
  destruct (navigation_some posts cur r Hr)
    as (name & i & Hs & Hne & Hslug & Hat & ->).
  destruct Hat as [(x & Hx & _) _]. apply nth_error_In in Hx.
  apply members_In in Hx. destruct Hx as (Hin & Hpf & Hser).
  destruct (summary_of_slug slugifyStr postFilter localeCompare posts
              (slugifyStr name) x Hin) as (s & Hs' & Hk & Hc).
  { unfold eligibleIn. now rewrite Hpf, Hser. }
  exists s. split; [exact Hs' |]. split; [congruence |].
  rewrite Hc, <- members_length. reflexivity.
Qed.

(** X11: the previous and the next post of a navigation result are posts
    of the collection that pass the filter and belong to the series the
    result links to; when the members have distinct ids, neither is the
    current post. *)
Theorem navigation_neighbours_are_other_members
    (posts : list CollectionEntry) (cur q : CollectionEntry)
    (r : SeriesNavigation.t) :
  navigation posts cur = Some r ->
  SeriesNavigation.prevPost r = Some q \/
  SeriesNavigation.nextPost r = Some q ->
  In q posts /\ postFilter q = true /\
  inSeries slugifyStr (slugOf r) q = true /\
  (NoDup (map id (members posts (slugOf r))) -> id q <> id cur).
Proof.
  intros Hr Hq.
  destruct (navigation_some posts cur r Hr)
    as (name & i & Hs & Hne & Hslug & Hat & ->).
  rewrite Hslug. clear Hslug.
  destruct Hat as [(x & Hx & Hidx) _]. apply String.eqb_eq in Hidx.
  set (l := members posts (slugifyStr name)) in *.
  assert (Hj : exists j, j <> i /\ nth_error l j = Some q).
  { unfold resultAt in Hq.
    cbn [SeriesNavigation.prevPost SeriesNavigation.nextPost] in Hq.
    destruct Hq as [Hq | Hq].
    - destruct (Nat.ltb_spec 0 i); [| discriminate].
      exists (i - 1)%nat. split; [lia | exact Hq].
    - destruct (Nat.ltb_spec i (List.length l - 1)); [| discriminate].
      exists (i + 1)%nat. split; [lia | exact Hq]. }
  destruct Hj as (j & Hji & Hqj).
  pose proof (nth_error_In _ _ Hqj) as Hin. apply members_In in Hin.
  destruct Hin as (Hin & Hpf & Hser). repeat split; try assumption.
  intros Hnd E. apply Hji.
  apply (same_id_same_place l j i q x Hnd Hqj Hx). congruence.
Qed.

(** X12: a post gets no navigation when every post of the collection with
    its id is rejected by the filter; in particular when the collection
    holds no post with its id. *)
Theorem navigation_null_for_filtered_post
    (posts : list CollectionEntry) (cur : CollectionEntry) :
  (forall p, In p posts -> id p = id cur -> postFilter p = false) ->
  navigation posts cur = None.
Proof.
  intros Hout. destruct (series (data cur)) as [name |] eqn:Hs.
  - apply navigation_missing with name; [exact Hs |].
    intros p Hp E. apply members_In in Hp. destruct Hp as (Hin & Hpf & _).
    rewrite (Hout p Hin E) in Hpf. discriminate.
  - apply navigation_falsy. now rewrite Hs.
Qed.

(** X13: a navigation result has neither a previous nor a next post
    exactly when the series has a single post. *)
Theorem no_neighbours_iff_single_post
    (posts : list CollectionEntry) (cur : CollectionEntry)
    (r : SeriesNavigation.t) :
  navigation posts cur = Some r ->
  (SeriesNavigation.prevPost r = None /\ SeriesNavigation.nextPost r = None
   <-> SeriesNavigation.totalPosts r = 1).
Proof.
  intros Hr.
  destruct (navigation_some posts cur r Hr)
    as (name & i & _ & _ & _ & Hat & ->).
  pose proof (firstAt_lt _ _ _ Hat) as Hlt.
  set (l := members posts (slugifyStr name)) in *.
  unfold resultAt.
  cbn [SeriesNavigation.prevPost SeriesNavigation.nextPost
       SeriesNavigation.totalPosts].
  destruct (Nat.ltb_spec 0 i), (Nat.ltb_spec i (List.length l - 1));
    rewrite ?nth_error_None; split; try lia; try (intros [? ?]; lia);
    try (intros; split; (reflexivity || lia)).
  all: intros [H1 H2]; try discriminate; lia.
Qed.

(** X14: the position of a navigation result leads back to the current
    post: the member at that 1-based position of the ordered series has the
    current post's id (and is a post of the collection that passes the
    filter). *)
Theorem navigation_position_finds_current_post
    (posts : list CollectionEntry) (cur : CollectionEntry)
    (r : SeriesNavigation.t) :
  navigation posts cur = Some r ->
  exists p,
    JsArray.at_ (members posts (slugOf r))
      (SeriesNavigation.currentIndex r - 1) = Some p /\
    id p = id cur /\ In p posts /\ postFilter p = true.
Proof.
  intros Hr.
  destruct (navigation_some posts cur r Hr)
    as (name & i & _ & _ & Hslug & Hat & ->).
  rewrite Hslug. destruct Hat as [(x & Hx & Hidx) _].
  apply String.eqb_eq in Hidx. exists x.
  cbn [resultAt SeriesNavigation.currentIndex].
  replace (Z.of_nat i + 1 - 1) with (Z.of_nat i) by lia.
  rewrite at_nat. split; [exact Hx |]. split; [exact Hidx |].
  apply nth_error_In in Hx. apply members_In in Hx.
  destruct Hx as (Hin & Hpf & _). now split.
Qed.
End NavigationAndIndex.

(** * The properties on sample collections *)

(** ** The code-unit collation is a consistent comparison *)

Lemma string_compare_trans (a : string) :
  forall b c,
    String.compare a b <> Gt -> String.compare b c <> Gt ->
    String.compare a c <> Gt.
Proof.
  induction a as [| x a IH]; intros [| y b] [| z c]; simpl; try congruence.
  unfold Ascii.compare.
  destruct (N.compare_spec (N_of_ascii x) (N_of_ascii y)),
    (N.compare_spec (N_of_ascii y) (N_of_ascii z)),
    (N.compare_spec (N_of_ascii x) (N_of_ascii z));
    try congruence; try lia.
  apply IH.
Qed.

Lemma codeUnitCompare_le (a b : string) :
  codeUnitCompare a b <= 0 <-> String.compare a b <> Gt.
Proof.
  unfold codeUnitCompare.
  destruct (String.compare a b); split; (lia || congruence).
Qed.

Lemma codeUnitCompare_total (a b : string) :
  0 < codeUnitCompare a b -> codeUnitCompare b a <= 0.
Proof.
  unfold codeUnitCompare. rewrite (String.compare_antisym a b).
  destruct (String.compare b a); simpl; lia.
Qed.

Lemma codeUnitCompare_trans (a b c : string) :
  codeUnitCompare a b <= 0 -> codeUnitCompare b c <= 0 ->
  codeUnitCompare a c <= 0.
Proof. rewrite !codeUnitCompare_le. apply string_compare_trans. Qed.

(** ** The scenarios of the specification *)

Example agent_series_in_reading_order :
  getPostsBySeries SampleSlug.slugifyStr everyPost
    [agent3; agent1; agent2] "building-a-coding-agent-in-rust" =
  [agent1; agent2; agent3].
Proof. reflexivity. Qed.

Example agent_second_post_navigation :
  getSeriesNavigation SampleSlug.slugifyStr everyPost
    [agent3; agent1; agent2] agent2 =
  Some (SeriesNavigation.mk (Some agent1) (Some agent3) 2 3
          "Building a Coding Agent in Rust").
Proof. reflexivity. Qed.

Example axum_names_share_one_summary :
  getUniqueSeries SampleSlug.slugifyStr everyPost codeUnitCompare
    [axumA; axumB] =
  [Series.mk "backend-engineering-in-axum" "Backend Engineering in Axum " 2].
Proof. reflexivity. Qed.

Example unordered_post_after_orders_1_2 :
  getPostsBySeries SampleSlug.slugifyStr everyPost
    [guideExtra; guide1; guide2] "guide" =
  [guide1; guide2; guideExtra].
Proof. reflexivity. Qed.

Example unordered_post_before_order_1000 :
  getPostsBySeries SampleSlug.slugifyStr everyPost
    [guideExtra; guide1000] "guide" =
  [guideExtra; guide1000].
Proof. reflexivity. Qed.

Example same_key_posts_keep_input_order :
  getPostsBySeries SampleSlug.slugifyStr everyPost [twinB; twinA] "twins" =
  [twinB; twinA].
Proof. reflexivity. Qed.

(** ** C1 *)

(** C1 as stated fails: a post without [seriesOrder] comes before a post of
    its series whose [seriesOrder] is 1000. *)
Lemma missing_order_precedes_order_1000 :
  ~ missingOrderSortsLast SampleSlug.slugifyStr everyPost.
Proof.
  intros H.
  destruct (H [guideExtra; guide1000] "guide" guide1000 guideExtra 1000)
    as [_ Hnot]; try reflexivity; simpl; auto.
  apply Hnot. now exists [], [], [].
Qed.

Lemma missing_order_after_orders_below_999_witness :
  precedes guide2 guideExtra
    (getPostsBySeries SampleSlug.slugifyStr everyPost
       [guideExtra; guide1; guide2] "guide") /\
  ~ precedes guideExtra guide2
      (getPostsBySeries SampleSlug.slugifyStr everyPost
         [guideExtra; guide1; guide2] "guide").
Proof.
  apply (missing_order_after_orders_below_999 SampleSlug.slugifyStr everyPost
           [guideExtra; guide1; guide2] "guide" guide2 guideExtra 2).
  - simpl. auto.
  - simpl. auto.
  - reflexivity.
  - reflexivity.
  - reflexivity.
Defined.

(** ** C2 *)

(** C2 as stated fails: two posts with different ids and the same order and
    date compare equal, and they come out in input order, here against the
    order of their ids. *)
Lemma equal_keys_not_ordered_by_id :
  ~ sortedByTriple SampleSlug.slugifyStr everyPost /\ ~ comparatorStrict.
Proof.
  split.
  - intros H. specialize (H [twinB; twinA] "twins").
    change (StronglySorted tripleLe [twinB; twinA]) in H.
    apply StronglySorted_inv in H. destruct H as [_ H].
    apply Forall_inv in H. unfold tripleLe in H. simpl in H.
    destruct H as [H | [_ [H | [_ H]]]]; try lia. discriminate.
  - intros H. apply (H twinB twinA); [discriminate | reflexivity].
Qed.

(** ** C3, C7, C8: the series index *)

Lemma series_post_counted_in_one_summary_witness :
  exists s,
    summariesOf (SampleSlug.slugifyStr "backend engineering in axum")
      (getUniqueSeries SampleSlug.slugifyStr everyPost codeUnitCompare
         [axumA; guide1; axumB]) = [s] /\
    Series.series s = SampleSlug.slugifyStr "backend engineering in axum" /\
    Series.count s =
      JsArray.length
        (filter
           (eligibleIn SampleSlug.slugifyStr everyPost
              (SampleSlug.slugifyStr "backend engineering in axum"))
           [axumA; guide1; axumB]) /\
    (forall name',
        SampleSlug.slugifyStr name' =
        SampleSlug.slugifyStr "backend engineering in axum" ->
        summariesOf (SampleSlug.slugifyStr name')
          (getUniqueSeries SampleSlug.slugifyStr everyPost codeUnitCompare
             [axumA; guide1; axumB]) = [s]).
Proof.
  apply (series_post_counted_in_one_summary SampleSlug.slugifyStr everyPost
           codeUnitCompare [axumA; guide1; axumB] axumB
           "backend engineering in axum").
  - simpl. auto.
  - reflexivity.
  - reflexivity.
  - discriminate.
Defined.

Lemma display_name_is_first_posts_name_witness :
  exists p,
    find
      (eligibleIn SampleSlug.slugifyStr everyPost
         "backend-engineering-in-axum")
      [guide1; axumA; axumB] = Some p /\
    series (data p) = Some "Backend Engineering in Axum ".
Proof.
  apply (display_name_is_first_posts_name SampleSlug.slugifyStr everyPost
           codeUnitCompare [guide1; axumA; axumB]
           (Series.mk "backend-engineering-in-axum"
              "Backend Engineering in Axum " 2)).
  simpl. auto.
Defined.

Lemma series_index_distinct_and_sorted_witness :
  NoDup
    (map Series.series
       (getUniqueSeries SampleSlug.slugifyStr everyPost codeUnitCompare
          [guide1; axumA; twinA; axumB])) /\
  StronglySorted (nameLe codeUnitCompare)
    (getUniqueSeries SampleSlug.slugifyStr everyPost codeUnitCompare
       [guide1; axumA; twinA; axumB]) /\
  ((forall p,
       In p [guide1; axumA; twinA; axumB] ->
       everyPost p && hasSeries p = false) ->
   getUniqueSeries SampleSlug.slugifyStr everyPost codeUnitCompare
     [guide1; axumA; twinA; axumB] = []).
Proof.
  apply (series_index_distinct_and_sorted SampleSlug.slugifyStr everyPost
           codeUnitCompare [guide1; axumA; twinA; axumB]).
  - exact codeUnitCompare_total.
  - exact codeUnitCompare_trans.
Defined.

(** ** C4, C10: navigation *)

Lemma navigation_position_and_neighbours_witness :
  getSeriesNavigation SampleSlug.slugifyStr everyPost
    [agent3; agent1; agent2] agent2 =
  Some (resultAt [agent1; agent2; agent3] 1
          "Building a Coding Agent in Rust") /\
  (exists r,
      getSeriesNavigation SampleSlug.slugifyStr everyPost
        [agent3; agent1; agent2] agent1 = Some r /\
      SeriesNavigation.prevPost r = None /\
      SeriesNavigation.currentIndex r = 1 /\
      SeriesNavigation.totalPosts r =
        JsArray.length [agent1; agent2; agent3]) /\
  (exists r,
      getSeriesNavigation SampleSlug.slugifyStr everyPost
        [agent3; agent1; agent2] agent3 = Some r /\
      SeriesNavigation.nextPost r = None /\
      SeriesNavigation.currentIndex r = SeriesNavigation.totalPosts r /\
      SeriesNavigation.totalPosts r =
        JsArray.length ([agent1; agent2] ++ [agent3])).
Proof.
  pose proof (navigation_position_and_neighbours SampleSlug.slugifyStr
                everyPost [agent3; agent1; agent2]) as (Hat & Hfirst & Hlast & _).
  split; [| split].
  - apply (Hat agent2 "Building a Coding Agent in Rust" 1%nat).
    + reflexivity.
    + discriminate.
    + split.
      * exists agent2. split; reflexivity.
      * intros [| j] y Hj Hy; [| lia]. now injection Hy as <-.
  - apply (Hfirst "building-a-coding-agent-in-rust" agent1 [agent2; agent3]).
    reflexivity.
  - apply (Hlast "building-a-coding-agent-in-rust" agent3 [agent1; agent2]).
    + reflexivity.
    + simpl. repeat constructor; simpl; intuition discriminate.
Defined.

Lemma navigation_reports_raw_series_name_witness :
  series (data axumB) = Some "backend engineering in axum" /\
  (forall q rq,
      getSeriesNavigation SampleSlug.slugifyStr everyPost [axumA; axumB] q =
      Some rq ->
      series (data q) <> series (data axumB) ->
      SeriesNavigation.seriesName rq <> "backend engineering in axum").
Proof.
  apply (navigation_reports_raw_series_name SampleSlug.slugifyStr everyPost
           [axumA; axumB] axumB
           (SeriesNavigation.mk (Some axumA) None 2 2
              "backend engineering in axum")).
  reflexivity.
Defined.

(** The two posts of one series are shown different series names, and the
    second one's is not the display name of the series index. *)
Example navigation_names_differ_within_a_series :
  option_map SeriesNavigation.seriesName
    (getSeriesNavigation SampleSlug.slugifyStr everyPost [axumA; axumB] axumA)
  = Some "Backend Engineering in Axum " /\
  option_map SeriesNavigation.seriesName
    (getSeriesNavigation SampleSlug.slugifyStr everyPost [axumA; axumB] axumB)
  = Some "backend engineering in axum" /\
  map Series.seriesName
    (getUniqueSeries SampleSlug.slugifyStr everyPost codeUnitCompare
       [axumA; axumB])
  = ["Backend Engineering in Axum "].
Proof. repeat split. Qed.

(** ** C9: the empty series name *)

Lemma empty_series_name_is_no_series_witness :
  (forall before after,
      getUniqueSeries SampleSlug.slugifyStr everyPost codeUnitCompare
        (before ++ blankSeries :: after) =
      getUniqueSeries SampleSlug.slugifyStr everyPost codeUnitCompare
        (before ++ after)) /\
  (forall posts s,
      ~ In blankSeries
          (getPostsBySeries SampleSlug.slugifyStr everyPost posts s)) /\
  (forall posts,
      getSeriesNavigation SampleSlug.slugifyStr everyPost posts blankSeries =
      None).
Proof.
  apply (empty_series_name_is_no_series SampleSlug.slugifyStr everyPost
           codeUnitCompare blankSeries).
  reflexivity.
Defined.

(** ** The index, the members and the navigation together *)

Lemma index_count_is_member_count_witness :
  Series.count
    (Series.mk "backend-engineering-in-axum" "Backend Engineering in Axum " 2)
  = JsArray.length
      (getPostsBySeries SampleSlug.slugifyStr everyPost
         [guide1; axumA; axumB] "backend-engineering-in-axum") /\
  1 <= Series.count
         (Series.mk "backend-engineering-in-axum"
            "Backend Engineering in Axum " 2).
Proof.
  apply (index_count_is_member_count SampleSlug.slugifyStr everyPost
           codeUnitCompare [guide1; axumA; axumB]
           (Series.mk "backend-engineering-in-axum"
              "Backend Engineering in Axum " 2)).
  simpl. auto.
Defined.

Lemma index_counts_ignore_collection_order_witness :
  exists s',
    In s'
      (getUniqueSeries SampleSlug.slugifyStr everyPost codeUnitCompare
         [axumB; guide1; axumA]) /\
    Series.series s' = "backend-engineering-in-axum" /\
    Series.count s' = 2.
Proof.
  apply (index_counts_ignore_collection_order SampleSlug.slugifyStr everyPost
           codeUnitCompare [guide1; axumB; axumA] [axumB; guide1; axumA]
           (Series.mk "backend-engineering-in-axum"
              "backend engineering in axum" 2)).
  - apply perm_swap.
  - simpl. auto.
Defined.

Lemma members_ignore_collection_order_witness :
  getPostsBySeries SampleSlug.slugifyStr everyPost
    [agent1; agent3; agent2] "building-a-coding-agent-in-rust" =
  getPostsBySeries SampleSlug.slugifyStr everyPost
    [agent3; agent1; agent2] "building-a-coding-agent-in-rust".
Proof.
  apply (members_ignore_collection_order SampleSlug.slugifyStr everyPost
           [agent3; agent1; agent2] [agent1; agent3; agent2]
           "building-a-coding-agent-in-rust").
  - apply perm_swap.
  - simpl. repeat constructor; simpl; intuition discriminate.
Defined.

Lemma navigation_next_and_previous_are_inverse_witness :
  (SeriesNavigation.nextPost
     (SeriesNavigation.mk (Some agent1) (Some agent3) 2 3
        "Building a Coding Agent in Rust") = Some agent3 ->
   exists r',
     getSeriesNavigation SampleSlug.slugifyStr everyPost
       [agent3; agent1; agent2] agent3 = Some r' /\
     option_map id (SeriesNavigation.prevPost r') = Some (id agent2) /\
     SeriesNavigation.currentIndex r' = 2 + 1 /\
     SeriesNavigation.totalPosts r' = 3) /\
  (SeriesNavigation.prevPost
     (SeriesNavigation.mk (Some agent1) (Some agent3) 2 3
        "Building a Coding Agent in Rust") = Some agent3 ->
   exists r',
     getSeriesNavigation SampleSlug.slugifyStr everyPost
       [agent3; agent1; agent2] agent3 = Some r' /\
     option_map id (SeriesNavigation.nextPost r') = Some (id agent2) /\
     SeriesNavigation.currentIndex r' = 2 - 1 /\
     SeriesNavigation.totalPosts r' = 3).
Proof.
  apply (navigation_next_and_previous_are_inverse SampleSlug.slugifyStr
           everyPost [agent3; agent1; agent2] agent2 agent3
           (SeriesNavigation.mk (Some agent1) (Some agent3) 2 3
              "Building a Coding Agent in Rust")).
  - reflexivity.
  - simpl. repeat constructor; simpl; intuition discriminate.
Defined.

Lemma navigation_total_is_index_count_witness :
  exists s,
    In s
      (getUniqueSeries SampleSlug.slugifyStr everyPost codeUnitCompare
         [agent3; guide1; agent1; agent2]) /\
    Series.series s = "building-a-coding-agent-in-rust" /\
    Series.count s = 3.
Proof.
  apply (navigation_total_is_index_count SampleSlug.slugifyStr everyPost
           codeUnitCompare [agent3; guide1; agent1; agent2] agent2
           (SeriesNavigation.mk (Some agent1) (Some agent3) 2 3
              "Building a Coding Agent in Rust")).
  reflexivity.
Defined.

Lemma navigation_neighbours_are_other_members_witness :
  In agent1 [agent3; guide1; agent1; agent2] /\
  everyPost agent1 = true /\
  inSeries SampleSlug.slugifyStr "building-a-coding-agent-in-rust" agent1
  = true /\
  (NoDup
     (map id
        (getPostsBySeries SampleSlug.slugifyStr everyPost
           [agent3; guide1; agent1; agent2]
           "building-a-coding-agent-in-rust")) ->
   id agent1 <> id agent2).
Proof.
  apply (navigation_neighbours_are_other_members SampleSlug.slugifyStr
           everyPost [agent3; guide1; agent1; agent2] agent2 agent1
           (SeriesNavigation.mk (Some agent1) (Some agent3) 2 3
              "Building a Coding Agent in Rust")).
  - reflexivity.
  - left. reflexivity.
Defined.

Lemma navigation_null_for_filtered_post_witness :
  getSeriesNavigation SampleSlug.slugifyStr everyPost [agent1; agent3] agent2
  = None.
Proof.
  apply (navigation_null_for_filtered_post SampleSlug.slugifyStr everyPost
           [agent1; agent3] agent2).
  intros p [<- | [<- | []]] E; discriminate E.
Defined.

Lemma no_neighbours_iff_single_post_witness :
  SeriesNavigation.prevPost (SeriesNavigation.mk None None 1 1 "Guide") = None /\
  SeriesNavigation.nextPost (SeriesNavigation.mk None None 1 1 "Guide") = None
  <-> SeriesNavigation.totalPosts (SeriesNavigation.mk None None 1 1 "Guide")
      = 1.
Proof.
  apply (no_neighbours_iff_single_post SampleSlug.slugifyStr everyPost
           [agent1; guide1] guide1
           (SeriesNavigation.mk None None 1 1 "Guide")).
  reflexivity.
Defined.

Lemma navigation_position_finds_current_post_witness :
  exists p,
    JsArray.at_
      (getPostsBySeries SampleSlug.slugifyStr everyPost
         [agent3; agent1; agent2] "building-a-coding-agent-in-rust")
      (2 - 1) = Some p /\
    id p = id agent2 /\ In p [agent3; agent1; agent2] /\ everyPost p = true.
Proof.
  apply (navigation_position_finds_current_post SampleSlug.slugifyStr
           everyPost [agent3; agent1; agent2] agent2
           (SeriesNavigation.mk (Some agent1) (Some agent3) 2 3
              "Building a Coding Agent in Rust")).
  reflexivity.
Defined.
